(** * XLin (CanuckLingo): notebook store, search flow and audio decoding

    A shallow embedding of the application logic of the repository:

    - [types]         the data model of [types.ts] (the Entry record);
    - [JSON]          the platform's [JSON.parse], on which the load effect
                      and [explainTerm] rest;
    - [geminiService] the AI gateway of [services/geminiService.ts]:
                      [explainTerm], [generateConceptImage],
                      [pcmToAudioBuffer], [generateStoryFromList];
    - [Flashcard]     what [components/Flashcard.tsx] reads to render a card;
    - [App]           the state and the handlers of [App.tsx].

    JavaScript strings are sequences of UTF-16 code units, numbers that are
    indices, lengths or clock readings are integers, and a function that can
    throw returns a [completion].  The replies of the external generative
    service, the clock and the content of the storage slot are inputs. *)

From Stdlib Require Import ZArith NArith QArith Qpower List String Ascii DecimalString Lia.
From Stdlib.Strings Require Import Byte.
From stdpp Require Import base decidable option numbers list.
Import ListNotations.

(** ** JavaScript strings and completions *)

(** A string is the list of its UTF-16 code units; [===] on strings is
    equality of these lists. *)
Abbreviation jsstring := (list N).

Definition js (s : string) : jsstring :=
  map N_of_ascii (list_ascii_of_string s).

(** Truthiness of a string: only the empty string is falsy. *)
Definition truthy_string (s : jsstring) : bool :=
  match s with [] => false | _ :: _ => true end.

(** Truthiness of a [string | undefined | null]. *)
Definition truthy_opt (s : option jsstring) : bool :=
  match s with Some s => truthy_string s | None => false end.

(** [\`${x}\`] for [x : string | undefined]. *)
Definition interpolate (s : option jsstring) : jsstring :=
  match s with Some s => s | None => js "undefined" end.

Inductive exn :=
| TypeError
| SyntaxError
| Error (message : jsstring)
| NotSupportedError
| Rejection.

(** How an evaluation ends: with a value or with a thrown exception. *)
Inductive completion (A : Type) :=
| Return (a : A)
| Throw (e : exn).
Arguments Return {A} a.
Arguments Throw {A} e.

(** How a promise of the external service settles. *)
Inductive settled (A : Type) :=
| Fulfilled (a : A)
| Rejected.
Arguments Fulfilled {A} a.
Arguments Rejected {A}.

(** [String.prototype.trim]: the code units that ECMAScript counts as
    white space or line terminators are stripped from both ends. *)
Definition is_js_space (c : N) : bool :=
  existsb (N.eqb c)
    [9; 10; 11; 12; 13; 32; 160; 5760; 8232; 8233; 8239; 8287; 12288; 65279]%N
  || ((8192 <=? c) && (c <=? 8202))%N.

Fixpoint trim_start (s : jsstring) : jsstring :=
  match s with
  | c :: r => if is_js_space c then trim_start r else s
  | [] => []
  end.

Definition trim (s : jsstring) : jsstring :=
  rev (trim_start (rev (trim_start s))).

(** ** JSON.parse *)

Module JSON.

#[local] Set Warnings "-register-all".

(** The values [JSON.parse] builds.  A number is kept as the numeral that
    denotes it; an object keeps its members in the order of the text, and
    a later member of the same name shadows an earlier one. *)
Inductive json :=
| JNull
| JBool (b : bool)
| JNum (numeral : jsstring)
| JStr (s : jsstring)
| JArr (items : list json)
| JObj (members : list (jsstring * json)).

Definition is_ws (c : N) : bool :=
  existsb (N.eqb c) [32; 9; 10; 13]%N.

Fixpoint skip_ws (s : jsstring) : jsstring :=
  match s with
  | c :: r => if is_ws c then skip_ws r else s
  | [] => []
  end.

Definition is_digit (c : N) : bool := ((48 <=? c) && (c <=? 57))%N.

Definition hex_value (c : N) : option N :=
  if is_digit c then Some (c - 48)%N
  else if ((97 <=? c) && (c <=? 102))%N then Some (c - 87)%N
  else if ((65 <=? c) && (c <=? 70))%N then Some (c - 55)%N
  else None.

(** [strip lit s]: [s] without its prefix [lit], when it has it. *)
Fixpoint strip (lit s : jsstring) : option jsstring :=
  match lit, s with
  | [], _ => Some s
  | a :: lit', b :: s' => if (a =? b)%N then strip lit' s' else None
  | _ :: _, [] => None
  end.

(** The characters of a string after its opening quote, up to the closing
    one; [acc] holds the code units read so far, last first. *)
Fixpoint parse_chars (s acc : jsstring) : option (jsstring * jsstring) :=
  match s with
  | [] => None
  | c :: r =>
    if (c =? 34)%N then Some (rev acc, r)
    else if (c =? 92)%N then
      match r with
      | [] => None
      | e :: r1 =>
        if (e =? 34)%N || (e =? 92)%N || (e =? 47)%N then parse_chars r1 (e :: acc)
        else if (e =? 98)%N then parse_chars r1 (8%N :: acc)
        else if (e =? 102)%N then parse_chars r1 (12%N :: acc)
        else if (e =? 110)%N then parse_chars r1 (10%N :: acc)
        else if (e =? 114)%N then parse_chars r1 (13%N :: acc)
        else if (e =? 116)%N then parse_chars r1 (9%N :: acc)
        else if (e =? 117)%N then
          match r1 with
          | h1 :: h2 :: h3 :: h4 :: r2 =>
            match hex_value h1, hex_value h2, hex_value h3, hex_value h4 with
            | Some a, Some b, Some c', Some d =>
              parse_chars r2 ((((a * 16 + b) * 16 + c') * 16 + d)%N :: acc)
            | _, _, _, _ => None
            end
          | _ => None
          end
        else None
      end
    else if (c <? 32)%N then None
    else parse_chars r (c :: acc)
  end.

(** The longest prefix of digits, and what follows it. *)
Fixpoint digits (s : jsstring) : jsstring * jsstring :=
  match s with
  | c :: r =>
    if is_digit c then let '(d, r') := digits r in (c :: d, r') else ([], s)
  | [] => ([], [])
  end.

(** A JSON numeral: an optional minus, an integer part without a leading
    zero, an optional fraction and an optional exponent. *)
Definition parse_number (s : jsstring) : option (jsstring * jsstring) :=
  let '(sign, s1) :=
    match s with
    | c :: r => if (c =? 45)%N then ([c], r) else ([], s)
    | [] => ([], s)
    end in
  let '(int, s2) := digits s1 in
  match int with
  | [] => None
  | d :: ds =>
    if (d =? 48)%N && match ds with [] => false | _ :: _ => true end then None
    else
      let frac :=
        match s2 with
        | c :: r =>
          if (c =? 46)%N then
            let '(f, s3) := digits r in
            match f with [] => None | _ => Some (c :: f, s3) end
          else Some ([], s2)
        | [] => Some ([], s2)
        end in
      match frac with
      | None => None
      | Some (f, s3) =>
        let exp :=
          match s3 with
          | c :: r =>
            if (c =? 101)%N || (c =? 69)%N then
              let '(sg, r1) :=
                match r with
                | c1 :: r' =>
                  if (c1 =? 43)%N || (c1 =? 45)%N then ([c1], r') else ([], r)
                | [] => ([], r)
                end in
              let '(e, s4) := digits r1 in
              match e with [] => None | _ => Some (c :: sg ++ e, s4) end
            else Some ([], s3)
          | [] => Some ([], s3)
          end in
        match exp with
        | None => None
        | Some (e, s4) => Some (sign ++ int ++ f ++ e, s4)
        end
      end
  end.

(** Recursive descent over values, the elements of an array after its
    opening bracket and the members of an object after its opening brace.
    [acc] holds what was read so far, last first. *)
Fixpoint parse_value (fuel : nat) (s : jsstring) : option (json * jsstring) :=
  match fuel with
  | O => None
  | S fuel' =>
    match skip_ws s with
    | [] => None
    | c :: r =>
      if (c =? 34)%N then
        '(str, r1) ← parse_chars r []; Some (JStr str, r1)
      else if (c =? 91)%N then
        match skip_ws r with
        | c1 :: r1 =>
          if (c1 =? 93)%N then Some (JArr [], r1)
          else parse_elements fuel' r []
        | [] => None
        end
      else if (c =? 123)%N then
        match skip_ws r with
        | c1 :: r1 =>
          if (c1 =? 125)%N then Some (JObj [], r1)
          else parse_members fuel' r []
        | [] => None
        end
      else if (c =? 45)%N || is_digit c then
        '(n, r1) ← parse_number (c :: r); Some (JNum n, r1)
      else
        match strip (js "null") (c :: r) with
        | Some r1 => Some (JNull, r1)
        | None =>
          match strip (js "true") (c :: r) with
          | Some r1 => Some (JBool true, r1)
          | None =>
            match strip (js "false") (c :: r) with
            | Some r1 => Some (JBool false, r1)
            | None => None
            end
          end
        end
    end
  end
with parse_elements (fuel : nat) (s : jsstring) (acc : list json)
  : option (json * jsstring) :=
  match fuel with
  | O => None
  | S fuel' =>
    '(v, r) ← parse_value fuel' s;
    match skip_ws r with
    | c :: r1 =>
      if (c =? 44)%N then parse_elements fuel' r1 (v :: acc)
      else if (c =? 93)%N then Some (JArr (rev (v :: acc)), r1)
      else None
    | [] => None
    end
  end
with parse_members (fuel : nat) (s : jsstring) (acc : list (jsstring * json))
  : option (json * jsstring) :=
  match fuel with
  | O => None
  | S fuel' =>
    match skip_ws s with
    | c :: r =>
      if (c =? 34)%N then
        '(k, r1) ← parse_chars r [];
        match skip_ws r1 with
        | c1 :: r2 =>
          if (c1 =? 58)%N then
            '(v, r3) ← parse_value fuel' r2;
            match skip_ws r3 with
            | c2 :: r4 =>
              if (c2 =? 44)%N then parse_members fuel' r4 ((k, v) :: acc)
              else if (c2 =? 125)%N then Some (JObj (rev ((k, v) :: acc)), r4)
              else None
            | [] => None
            end
          else None
        | [] => None
        end
      else None
    | [] => None
    end
  end.

(** The value a text denotes, when it is a JSON text.  Every call of the
    descent follows the reading of at least one code unit or is made by a
    call that does, so twice the length of the text bounds its depth. *)
Definition read (text : jsstring) : option json :=
  match parse_value (2 * length text + 2) text with
  | Some (v, r) => match skip_ws r with [] => Some v | _ :: _ => None end
  | None => None
  end.

(** [JSON.parse] *)
Definition parse (text : jsstring) : completion json :=
  match read text with
  | Some v => Return v
  | None => Throw SyntaxError
  end.

(** What the choice of the fuel rests on: a call of the descent that reads
    something leaves less than it was given, and reads the same with any
    fuel above twice the length of what it was given. *)
Definition value_ok (fuel : nat) : Prop :=
  forall s res, parse_value fuel s = Some res ->
    length res.2 < length s
    /\ forall fuel', 2 * length s + 1 <= fuel' -> parse_value fuel' s = Some res.

Definition elements_ok (fuel : nat) : Prop :=
  forall s acc res, parse_elements fuel s acc = Some res ->
    length res.2 < length s
    /\ forall fuel', 2 * length s + 2 <= fuel' -> parse_elements fuel' s acc = Some res.

Definition members_ok (fuel : nat) : Prop :=
  forall s acc res, parse_members fuel s acc = Some res ->
    length res.2 < length s
    /\ forall fuel', 2 * length s + 2 <= fuel' -> parse_members fuel' s acc = Some res.

(** Reading a property of a parsed object: the last member of that name. *)
Definition get (k : jsstring) (members : list (jsstring * json)) : option json :=
  snd <$> List.find (fun m => bool_decide (fst m = k)) (rev members).

End JSON.

(** ** types.ts *)

Module types.

Inductive ViewState := SEARCH | NOTEBOOK | FLASHCARDS | STORY.

Record Example := {
  english : jsstring;
  mandarin : jsstring }.

(** [context] and [imageUrl] are the optional fields; [timestamp] is a
    reading of the clock, in milliseconds. *)
Record DictionaryEntry := {
  id : jsstring;
  term : jsstring;
  context : option jsstring;
  definitionEnglish : jsstring;
  definitionMandarin : jsstring;
  examples : list Example;
  usageNote : jsstring;
  imageUrl : option jsstring;
  timestamp : Z }.

End types.
Import types.

#[global] Instance ViewState_eq_dec : EqDecision ViewState.
Proof. solve_decision. Defined.

(** What the handlers do besides changing the state, in the order they do
    it: the calls into the gateway with their arguments, the alert shown to
    the user and the lines written to the console. *)
Inductive effect :=
| explainTerm_called (term context : jsstring)
| generateConceptImage_called (prompt : jsstring)
| generateStoryFromList_called (terms : list jsstring)
| alert (message : jsstring)
| console_error.

#[global] Instance effect_eq_dec : EqDecision effect.
Proof. solve_decision. Defined.

(** ** services/geminiService.ts *)

Module geminiService.

Import JSON.

(** What the code reads of a [generateContent] response. *)
Record Blob := {
  mimeType : option jsstring;
  data : option jsstring }.

Record Part := { inlineData : option Blob }.

Record Content := { parts : option (list Part) }.

Record Candidate := { content : option Content }.

Record GenerateContentResponse := {
  text : option jsstring;
  candidates : option (list Candidate) }.

(** *** explainTerm *)

(** [const text = response.text; if (!text) throw ...; return JSON.parse(text)]:
    the value returned is whatever the text parses to. *)
Definition explainTerm (reply : settled GenerateContentResponse) : completion json :=
  match reply with
  | Rejected => Throw Rejection
  | Fulfilled response =>
    match text response with
    | Some t =>
      if truthy_string t then parse t
      else Throw (Error (js "No response from AI"))
    | None => Throw (Error (js "No response from AI"))
    end
  end.

(** The payload as the caller reads it: the four text fields of the
    response schema, the image prompt that [handleSearch] reads with a
    fallback, and the [term] and [context] that the declared return type
    [Omit<DictionaryEntry, 'id' | 'timestamp' | 'imageUrl'>] allows. *)
Record Explanation := {
  x_term : option jsstring;
  x_context : option jsstring;
  x_definitionEnglish : jsstring;
  x_definitionMandarin : jsstring;
  x_examples : list Example;
  x_usageNote : jsstring;
  imagePrompt : option jsstring }.

Definition as_string (v : json) : option jsstring :=
  match v with JStr s => Some s | _ => None end.

(** An optional string property: absent, or present and a string. *)
Definition optional_string (k : jsstring) (o : list (jsstring * json))
  : option (option jsstring) :=
  match get k o with
  | None => Some None
  | Some (JStr s) => Some (Some s)
  | Some _ => None
  end.

Definition absent (k : jsstring) (o : list (jsstring * json)) : option unit :=
  match get k o with None => Some () | Some _ => None end.

Definition example_of_json (v : json) : option Example :=
  match v with
  | JObj o =>
    en ← get (js "english") o ≫= as_string;
    zh ← get (js "mandarin") o ≫= as_string;
    Some {| english := en; mandarin := zh |}
  | _ => None
  end.

Definition examples_of_json (v : json) : option (list Example) :=
  match v with
  | JArr items => mapM example_of_json items
  | _ => None
  end.

(** The parsed values that inhabit [Explanation].  A payload with an [id]
    or a [timestamp] of its own is none of them: the declared type omits
    both. *)
Definition explanation_of_json (v : json) : option Explanation :=
  match v with
  | JObj o =>
    _ ← absent (js "id") o;
    _ ← absent (js "timestamp") o;
    t ← optional_string (js "term") o;
    c ← optional_string (js "context") o;
    en ← get (js "definitionEnglish") o ≫= as_string;
    zh ← get (js "definitionMandarin") o ≫= as_string;
    ex ← get (js "examples") o ≫= examples_of_json;
    note ← get (js "usageNote") o ≫= as_string;
    prompt ← optional_string (js "imagePrompt") o;
    Some {| x_term := t; x_context := c; x_definitionEnglish := en;
            x_definitionMandarin := zh; x_examples := ex;
            x_usageNote := note; imagePrompt := prompt |}
  | _ => None
  end.

(** *** generateConceptImage *)

(** [response.candidates?.[0]?.content?.parts] *)
Definition first_parts (response : GenerateContentResponse) : option (list Part) :=
  cs ← candidates response;
  c ← head cs;
  ct ← content c;
  parts ct.

(** The loop over the parts: the data URI of the first part that carries
    inline data. *)
Fixpoint image_of_parts (ps : list Part) : option jsstring :=
  match ps with
  | [] => None
  | part :: rest =>
    match inlineData part with
    | Some blob =>
      Some (js "data:" ++ interpolate (mimeType blob)
            ++ js ";base64," ++ interpolate (data blob))
    | None => image_of_parts rest
    end
  end.

(** The image reference, or [None] for [undefined], with what is logged:
    a rejection of the service is caught and logged, never thrown on. *)
Definition generateConceptImage (reply : settled GenerateContentResponse)
  : option jsstring * list effect :=
  match reply with
  | Rejected => (None, [console_error])
  | Fulfilled response =>
    match first_parts response with
    | Some ps => (image_of_parts ps, [])
    | None => (None, [])
    end
  end.

(** *** pcmToAudioBuffer *)

(** An element of an [Int16Array] over two bytes of the buffer, low byte
    first (the byte order of the platforms the application runs on). *)
Definition int16 (lo hi : Byte.byte) : Z :=
  let u := (Z.of_N (Byte.to_N lo) + 256 * Z.of_N (Byte.to_N hi))%Z in
  if (u <? 32768)%Z then u else (u - 65536)%Z.

(** [new Int16Array(data.buffer, data.byteOffset, data.byteLength / 2)] for
    the array [decodeBase64] returns, which starts its buffer: one element
    per whole pair of bytes; the length is truncated to an integer, so the
    last byte of an odd-sized array is left out. *)
Fixpoint Int16Array (bytes : list Byte.byte) : list Z :=
  match bytes with
  | lo :: hi :: rest => int16 lo hi :: Int16Array rest
  | _ => []
  end.

(** An [AudioBuffer]: its channels hold 32-bit floats.  The samples stored
    below are quotients of a 16-bit integer by 2^15, which 32-bit floats
    represent exactly ([sample_is_binary32]), so they are kept as
    rationals. *)
Record AudioBuffer := {
  numberOfChannels : Z;
  length : Z;
  sampleRate : Z;
  getChannelData : list (list Q) }.

(** [ctx.createBuffer(numberOfChannels, length, sampleRate)] of the Web
    Audio API: channels of silence, and a [NotSupportedError] for a buffer
    of no channel or no frame.  (A rate outside the range of the
    implementation is refused as well; 24000 Hz, the only rate the code
    asks for, lies within the range every implementation has to support.) *)
Definition createBuffer (numberOfChannels length : nat) (sampleRate : Z)
  : completion AudioBuffer :=
  if (numberOfChannels =? 0)%nat || (length =? 0)%nat then Throw NotSupportedError
  else Return {| numberOfChannels := Z.of_nat numberOfChannels;
                 length := Z.of_nat length;
                 sampleRate := sampleRate;
                 getChannelData := replicate numberOfChannels (replicate length 0%Q) |}.

(** The loop [for (let i = 0; i < pcm16.length; i++) channelData[i] =
    pcm16[i] / 32768.0], from index [i] on, [pcm16] being what is left to
    read. *)
Fixpoint fill (pcm16 : list Z) (i : nat) (channelData : list Q) : list Q :=
  match pcm16 with
  | [] => channelData
  | sample :: rest => fill rest (S i) (<[i := (sample # 32768)%Q]> channelData)
  end.

(** The loop writes in place, into the first channel of the buffer. *)
Definition pcmToAudioBuffer (data : list Byte.byte) (sampleRate : option Z)
  : completion AudioBuffer :=
  let sampleRate := default 24000%Z sampleRate in
  let pcm16 := Int16Array data in
  match createBuffer 1 (List.length pcm16) sampleRate with
  | Throw e => Throw e
  | Return buffer =>
    let channelData := default [] (getChannelData buffer !! 0%nat) in
    Return {| numberOfChannels := numberOfChannels buffer;
              length := length buffer;
              sampleRate := geminiService.sampleRate buffer;
              getChannelData :=
                <[0%nat := fill pcm16 0 channelData]> (getChannelData buffer) |}
  end.

(** The call [playTTS] makes, inside its [try] block. *)
Definition decoded_speech (bytes : list Byte.byte) : completion AudioBuffer :=
  pcmToAudioBuffer bytes (Some 24000%Z).

(** *** generateStoryFromList *)

(** [return response.text || "Could not generate story."] *)
Definition generateStoryFromList (reply : settled GenerateContentResponse)
  : completion jsstring :=
  match reply with
  | Rejected => Throw Rejection
  | Fulfilled response =>
    Return (if truthy_opt (text response)
            then default [] (text response)
            else js "Could not generate story.")
  end.

End geminiService.

(** ** components/Flashcard.tsx *)

Module Flashcard.

(** The props.  [entry] is what the parent read at [notebook[flashcardIndex]]:
    [None] stands for the [undefined] an index out of range gives. *)
Record Props := {
  entry : option DictionaryEntry;
  total : Z;
  currentIndex : Z }.

(** What a rendered card shows: both faces are in the tree, the flip only
    turns them. *)
Record card := {
  counter : Z * Z;
  front_image : option jsstring;
  front_term : jsstring;
  back_definition : jsstring;
  back_meaning : jsstring;
  back_example : jsstring }.

(** The body of the component.  Reading a property of [undefined] throws
    a [TypeError]: [entry.imageUrl] of an undefined entry, and
    [entry.examples[0].english] of an entry without examples. *)
Definition render (props : Props) : completion card :=
  match entry props with
  | None => Throw TypeError
  | Some e =>
    match examples e !! 0%nat with
    | None => Throw TypeError
    | Some ex =>
      Return {| counter := (currentIndex props + 1, total props)%Z;
                front_image := if truthy_opt (imageUrl e) then imageUrl e else None;
                front_term := term e;
                back_definition := definitionEnglish e;
                back_meaning := definitionMandarin e;
                back_example := english ex |}
    end
  end.

End Flashcard.

(** ** App.tsx *)

Module App.

Import JSON.

(** *** The load effect *)

(** [try { body } catch (e) { handler }] *)
Definition try_catch {A : Type} (body : completion A) (handler : exn -> completion A)
  : completion A :=
  match body with
  | Return a => Return a
  | Throw e => handler e
  end.

(** The effect run on mount, as a function of the [notebook] state it
    finds: [saved] is what [localStorage.getItem] returned ([None] for
    [null]).  The state is typed as a list of entries, and the effect
    stores in it whatever the text parses to; the [catch] logs a text that
    does not parse and leaves the state alone. *)
Definition load (saved : option jsstring) (notebook : json) : completion json :=
  match saved with
  | Some text =>
    if truthy_string text
    then try_catch (parse text) (fun _ => Return notebook)
    else Return notebook
  | None => Return notebook
  end.

(** [useState<DictionaryEntry[]>([])] followed by the load effect. *)
Definition loaded (saved : option jsstring) : completion json :=
  load saved (JArr []).

(** A collection, at its weakest: an array. *)
Definition isArray (v : json) : bool :=
  match v with JArr _ => true | _ => false end.

(** *** The state of the component *)

Record state := {
  view : ViewState;
  notebook : list DictionaryEntry;
  searchTerm : jsstring;
  context : jsstring;
  isSearching : bool;
  currentResult : option DictionaryEntry;
  flashcardIndex : Z;
  story : option jsstring;
  isGeneratingStory : bool }.

(** The initial values of the [useState] calls, with the notebook that the
    load effect found. *)
Definition init (nb : list DictionaryEntry) : state :=
  {| view := SEARCH; notebook := nb; searchTerm := []; context := [];
     isSearching := false; currentResult := None; flashcardIndex := 0;
     story := None; isGeneratingStory := false |}.

Definition setView (v : ViewState) (st : state) : state :=
  {| view := v; notebook := notebook st; searchTerm := searchTerm st;
     context := context st; isSearching := isSearching st;
     currentResult := currentResult st; flashcardIndex := flashcardIndex st;
     story := story st; isGeneratingStory := isGeneratingStory st |}.

(** [setNotebook(prev => ...)] *)
Definition setNotebook (update : list DictionaryEntry -> list DictionaryEntry)
  (st : state) : state :=
  {| view := view st; notebook := update (notebook st);
     searchTerm := searchTerm st; context := context st;
     isSearching := isSearching st; currentResult := currentResult st;
     flashcardIndex := flashcardIndex st; story := story st;
     isGeneratingStory := isGeneratingStory st |}.

Definition setSearchTerm (s : jsstring) (st : state) : state :=
  {| view := view st; notebook := notebook st; searchTerm := s;
     context := context st; isSearching := isSearching st;
     currentResult := currentResult st; flashcardIndex := flashcardIndex st;
     story := story st; isGeneratingStory := isGeneratingStory st |}.

Definition setContext (s : jsstring) (st : state) : state :=
  {| view := view st; notebook := notebook st; searchTerm := searchTerm st;
     context := s; isSearching := isSearching st;
     currentResult := currentResult st; flashcardIndex := flashcardIndex st;
     story := story st; isGeneratingStory := isGeneratingStory st |}.

Definition setIsSearching (b : bool) (st : state) : state :=
  {| view := view st; notebook := notebook st; searchTerm := searchTerm st;
     context := context st; isSearching := b;
     currentResult := currentResult st; flashcardIndex := flashcardIndex st;
     story := story st; isGeneratingStory := isGeneratingStory st |}.

Definition setCurrentResult (r : option DictionaryEntry) (st : state) : state :=
  {| view := view st; notebook := notebook st; searchTerm := searchTerm st;
     context := context st; isSearching := isSearching st;
     currentResult := r; flashcardIndex := flashcardIndex st;
     story := story st; isGeneratingStory := isGeneratingStory st |}.

(** [setFlashcardIndex(prev => ...)] *)
Definition setFlashcardIndex (update : Z -> Z) (st : state) : state :=
  {| view := view st; notebook := notebook st; searchTerm := searchTerm st;
     context := context st; isSearching := isSearching st;
     currentResult := currentResult st;
     flashcardIndex := update (flashcardIndex st);
     story := story st; isGeneratingStory := isGeneratingStory st |}.

Definition setStory (s : option jsstring) (st : state) : state :=
  {| view := view st; notebook := notebook st; searchTerm := searchTerm st;
     context := context st; isSearching := isSearching st;
     currentResult := currentResult st; flashcardIndex := flashcardIndex st;
     story := s; isGeneratingStory := isGeneratingStory st |}.

Definition setIsGeneratingStory (b : bool) (st : state) : state :=
  {| view := view st; notebook := notebook st; searchTerm := searchTerm st;
     context := context st; isSearching := isSearching st;
     currentResult := currentResult st; flashcardIndex := flashcardIndex st;
     story := story st; isGeneratingStory := b |}.

(** How a handler ends: with the state it leaves and what it did on the
    way, or, for a service payload that is no [Explanation], outside what
    the typed state can hold. *)
Inductive outcome :=
| Finished (st : state) (trace : list effect)
| Untyped (payload : json).

(** *** toggleSave *)

(** [notebook] is the list the handler closes over and tests; the update it
    passes to [setNotebook] works on the list the state holds then. *)
Definition toggleSave (notebook : list DictionaryEntry) (entry : DictionaryEntry)
  : list DictionaryEntry -> list DictionaryEntry :=
  let exists_ := List.find (fun n => bool_decide (term n = term entry)) notebook in
  match exists_ with
  | Some _ => fun prev => filter (fun n => term n ≠ term entry) prev
  | None => fun prev => prev ++ [entry]
  end.

(** A toggle on a rendered state: both lists are the notebook. *)
Definition toggle (nb : list DictionaryEntry) (entry : DictionaryEntry)
  : list DictionaryEntry :=
  toggleSave nb entry nb.

(** *** handleSearch *)

(** What one search takes from outside: how the two requests settle and
    the two readings of the clock. *)
Record search_env := {
  explain_reply : settled geminiService.GenerateContentResponse;
  image_reply : settled geminiService.GenerateContentResponse;
  now_id : N;
  now_timestamp : N }.

(** [Date.now().toString()]: the decimal numeral, which is what [toString]
    gives for an integer below 10^21, as every reading of the clock is. *)
Definition toString (n : N) : jsstring :=
  js (NilZero.string_of_uint (N.to_uint n)).

Definition generic_alert : jsstring := js "Something went wrong. Please try again.".

(** [...textData] comes after [term] and [context] in the object literal
    and before [imageUrl]: a [term] or [context] of the payload replaces
    the one typed by the user, the image is always the one just made. *)
Definition make_entry (env : search_env) (st : state)
  (textData : geminiService.Explanation) (imageUrl : option jsstring)
  : DictionaryEntry :=
  {| id := toString (now_id env);
     term := default (searchTerm st) (geminiService.x_term textData);
     types.context := Some (default (context st) (geminiService.x_context textData));
     timestamp := Z.of_N (now_timestamp env);
     definitionEnglish := geminiService.x_definitionEnglish textData;
     definitionMandarin := geminiService.x_definitionMandarin textData;
     examples := geminiService.x_examples textData;
     usageNote := geminiService.x_usageNote textData;
     imageUrl := imageUrl |}.

(** One run of the handler, from the click to the [finally].  Whatever is
    thrown in the [try] block ends in the [catch]: what [explainTerm]
    throws, and the [TypeError] of reading [imagePrompt] of a payload that
    is [null]. *)
Definition handleSearch (env : search_env) (st : state) : outcome :=
  if negb (truthy_string (trim (searchTerm st))) then Finished st []
  else
    let st1 := setCurrentResult None (setIsSearching true st) in
    let explain := explainTerm_called (searchTerm st) (context st) in
    let failed :=
      Finished (setIsSearching false st1)
               [explain; alert generic_alert; console_error] in
    match geminiService.explainTerm (explain_reply env) with
    | Throw _ => failed
    | Return JNull => failed
    | Return payload =>
      match geminiService.explanation_of_json payload with
      | None => Untyped payload
      | Some textData =>
        let imagePrompt :=
          if truthy_opt (geminiService.imagePrompt textData)
          then default [] (geminiService.imagePrompt textData)
          else searchTerm st in
        let '(imageUrl, logged) :=
          geminiService.generateConceptImage (image_reply env) in
        let entry := make_entry env st textData imageUrl in
        Finished (setIsSearching false (setCurrentResult (Some entry) st1))
                 ([explain; generateConceptImage_called imagePrompt] ++ logged)
      end
    end.

(** *** handleGenerateStory *)

Definition handleGenerateStory
  (reply : settled geminiService.GenerateContentResponse) (st : state)
  : state * list effect :=
  if (List.length (notebook st) =? 0)%nat then (st, [])
  else
    let st1 := setStory None (setIsGeneratingStory true st) in
    let terms := term <$> notebook st in
    match geminiService.generateStoryFromList reply with
    | Return result =>
      (setIsGeneratingStory false (setView STORY (setStory (Some result) st1)),
       [generateStoryFromList_called terms])
    | Throw _ =>
      (setIsGeneratingStory false st1,
       [generateStoryFromList_called terms; console_error])
    end.

(** The [disabled] attribute of the Story Mode button. *)
Definition story_disabled (st : state) : bool :=
  (List.length (notebook st) <? 2)%nat || isGeneratingStory st.

(** *** renderFlashcards *)

(** [notebook[flashcardIndex]] *)
Definition at_index (nb : list DictionaryEntry) (i : Z) : option DictionaryEntry :=
  if (i <? 0)%Z then None else nb !! Z.to_nat i.

(** The placeholder ([None]) for an empty notebook, else the card. *)
Definition renderFlashcards (st : state) : completion (option Flashcard.card) :=
  if (List.length (notebook st) =? 0)%nat then Return None
  else
    let entry := at_index (notebook st) (flashcardIndex st) in
    match Flashcard.render
            {| Flashcard.entry := entry;
               Flashcard.total := Z.of_nat (List.length (notebook st));
               Flashcard.currentIndex := flashcardIndex st |} with
    | Return c => Return (Some c)
    | Throw e => Throw e
    end.

(** [onNext] and [onPrev], with the remainder of JavaScript (that of the
    truncated division). *)
Definition onNext (nb : list DictionaryEntry) (prev : Z) : Z :=
  Z.rem (prev + 1) (Z.of_nat (List.length nb)).

Definition onPrev (nb : list DictionaryEntry) (prev : Z) : Z :=
  Z.rem (prev - 1 + Z.of_nat (List.length nb)) (Z.of_nat (List.length nb)).

(** An exception thrown while rendering takes the whole tree down, the
    navigation bar with it; of the views, only the study view can throw on
    a typed state. *)
Definition crashed (st : state) : bool :=
  match view st, renderFlashcards st with
  | FLASHCARDS, Throw _ => true
  | _, _ => false
  end.

(** *** The actions the screens offer *)

Inductive action :=
| TypeSearchTerm (s : jsstring)
| TypeContext (s : jsstring)
| ClickExplain (env : search_env)
| ClickSave
| ClickRemove (row : nat)
| ClickStoryMode (reply : settled geminiService.GenerateContentResponse)
| Navigate (v : ViewState)
| ClickNext
| ClickPrev.

(** One action on a rendered state.  An action that the current screen
    does not offer (a control of another view, a disabled button, a row
    that is not there, anything after a crash) leaves the state as it is.
    The navigation bar leads to the search, notebook and study views, and
    the back button of the story view to the notebook. *)
Definition step (a : action) (st : state) : outcome :=
  if crashed st then Finished st [] else
  match a, view st with
  | TypeSearchTerm s, SEARCH => Finished (setSearchTerm s st) []
  | TypeContext s, SEARCH => Finished (setContext s st) []
  | ClickExplain env, SEARCH =>
    if isSearching st || negb (truthy_string (searchTerm st))
    then Finished st []
    else handleSearch env st
  | ClickSave, SEARCH =>
    match currentResult st with
    | Some data => Finished (setNotebook (toggleSave (notebook st) data) st) []
    | None => Finished st []
    end
  | ClickRemove row, NOTEBOOK =>
    match notebook st !! row with
    | Some item => Finished (setNotebook (toggleSave (notebook st) item) st) []
    | None => Finished st []
    end
  | ClickStoryMode reply, NOTEBOOK =>
    if story_disabled st then Finished st []
    else let '(st', trace) := handleGenerateStory reply st in Finished st' trace
  | Navigate STORY, _ => Finished st []
  | Navigate v, _ => Finished (setView v st) []
  | ClickNext, FLASHCARDS =>
    match renderFlashcards st with
    | Return (Some _) => Finished (setFlashcardIndex (onNext (notebook st)) st) []
    | _ => Finished st []
    end
  | ClickPrev, FLASHCARDS =>
    match renderFlashcards st with
    | Return (Some _) => Finished (setFlashcardIndex (onPrev (notebook st)) st) []
    | _ => Finished st []
    end
  | _, _ => Finished st []
  end.

(** A sequence of actions, each on the state the one before left. *)
Fixpoint run (actions : list action) (st : state) : outcome :=
  match actions with
  | [] => Finished st []
  | a :: rest =>
    match step a st with
    | Finished st' trace =>
      match run rest st' with
      | Finished st'' trace' => Finished st'' (trace ++ trace')
      | Untyped v => Untyped v
      end
    | Untyped v => Untyped v
    end
  end.

End App.

(** ** The vocabulary of the specification *)

Module spec.

(** The states of the search flow, as the specification names them. *)
Inductive FlowState := Idle | Explaining | Illustrating | Ready | Failed.

(** The state a step of a run of [handleSearch] enters: the call of
    [explainTerm] enters [Explaining], the call of [generateConceptImage]
    enters [Illustrating], the alert enters [Failed]. *)
Definition phase_of (ev : effect) : list FlowState :=
  match ev with
  | explainTerm_called _ _ => [Explaining]
  | generateConceptImage_called _ => [Illustrating]
  | alert _ => [Failed]
  | _ => []
  end.

(** The states one run goes through, read off what it did and the state
    it left: a run that did something and left a result ends in [Ready]. *)
Definition flow (st' : App.state) (trace : list effect) : list FlowState :=
  Idle :: (trace ≫= phase_of)
       ++ match trace, App.currentResult st' with
          | _ :: _, Some _ => [Ready]
          | _, _ => []
          end.

(** "Explain fails": the request is rejected, the response carries no
    text, or its text is no JSON text. *)
Definition explain_fails (reply : settled geminiService.GenerateContentResponse) : Prop :=
  reply = Rejected
  \/ exists response,
      reply = Fulfilled response
      /\ (truthy_opt (geminiService.text response) = false
          \/ exists t, geminiService.text response = Some t /\ JSON.read t = None).


(** A rational that a 32-bit float holds exactly: an integer of at most 24
    bits times a power of two within the exponent range of the format. *)
Definition binary32_exact (q : Q) : Prop :=
  exists m e : Z,
    (Z.abs m < 2 ^ 24)%Z /\ (-149 <= e <= 104)%Z /\ (q == inject_Z m * 2 ^ e)%Q.

(** The flashcard cursor points into the notebook. *)
Definition cursor_in_range (st : App.state) : Prop :=
  App.notebook st = []
  \/ (0 <= App.flashcardIndex st < Z.of_nat (length (App.notebook st)))%Z.

End spec.

(** ** Sample data *)

Module samples.

(** A saved entry of the given term, with one example pair. *)
Definition entry_of (t : string) : DictionaryEntry :=
  {| id := js "1700000000000";
     term := js t;
     types.context := Some [];
     definitionEnglish := js "A word.";
     definitionMandarin := js "yi ge ci";
     examples := [ {| english := js "An example."; mandarin := js "li zi" |} ];
     usageNote := js "Casual.";
     imageUrl := None;
     timestamp := 1700000000000 |}.

Definition toque : DictionaryEntry := entry_of "toque".
Definition double_double : DictionaryEntry := entry_of "double-double".

(** The same term fetched again, with another explanation. *)
Definition toque_again : DictionaryEntry :=
  {| id := js "1700000099999";
     term := js "toque";
     types.context := Some (js "winter");
     definitionEnglish := js "A knitted cap.";
     definitionMandarin := js "mao zi";
     examples := [];
     usageNote := js "Canadian.";
     imageUrl := Some (js "data:image/png;base64,AAAA");
     timestamp := 1700000099999 |}.

(** A JSON text, written with ['] where the text has its double quote. *)
Definition text_of (s : string) : jsstring :=
  map (fun c => if (c =? 39)%N then 34%N else c) (js s).

(** A response of the service that carries the given text and no
    candidates. *)
Definition text_response (t : jsstring) : geminiService.GenerateContentResponse :=
  {| geminiService.text := Some t; geminiService.candidates := None |}.

(** A payload of the shape the response schema asks for. *)
Definition payload : jsstring :=
  text_of "{'definitionEnglish': 'A knitted cap.', 'definitionMandarin': 'mao zi', 'examples': [{'english': 'Wear a toque.', 'mandarin': 'dai mao zi'}], 'usageNote': 'Canadian.', 'imagePrompt': 'a knitted cap'}".


(** The same with an empty list of examples, which the schema allows. *)
Definition payload_without_examples : jsstring :=
  text_of "{'definitionEnglish': 'A knitted cap.', 'definitionMandarin': 'mao zi', 'examples': [], 'usageNote': 'Canadian.', 'imagePrompt': 'a knitted cap'}".

(** A search whose explanation arrives and whose image request is
    rejected. *)
Definition env_no_image (t : jsstring) : App.search_env :=
  {| App.explain_reply := Fulfilled (text_response t);
     App.image_reply := Rejected;
     App.now_id := 1700000000000;
     App.now_timestamp := 1700000000001 |}.

(** A search whose explanation is no JSON text. *)
Definition env_unparsable : App.search_env :=
  env_no_image (js "Sorry, I cannot help with that.").

(** Five bytes of audio: the lowest sample, the highest, and a byte over. *)
Definition pcm : list Byte.byte := [Byte.x00; Byte.x80; Byte.xff; Byte.x7f; Byte.x01].

(** A state of the search view with a term typed in. *)
Definition typed (t : string) : App.state := App.setSearchTerm (js t) (App.init []).

End samples.

(** ** App.tsx: what the search view shows of the notebook *)

Module views.

(** [isSaved={!!notebook.find(n => n.term === currentResult.term)}], the
    state of the bookmark of the result card. *)
Definition isSaved (notebook : list DictionaryEntry) (currentResult : DictionaryEntry)
  : bool :=
  match List.find (fun n => bool_decide (term n = term currentResult)) notebook with
  | Some _ => true
  | None => false
  end.

End views.

(** ** services/geminiService.ts: the speech path *)

Module tts.

Import geminiService.

(** *** atob *)

(** The platform's [atob], the forgiving base64 decoding of the HTML
    standard: ASCII white space is dropped; one or two final [=] are
    dropped when the length is a multiple of four; a length of one more
    than a multiple of four, or a character outside the alphabet, is an
    [InvalidCharacterError] ([None]); each character stands for six bits,
    and the bits left over after the last whole byte are dropped. *)
Definition is_ascii_whitespace (c : N) : bool :=
  existsb (N.eqb c) [9; 10; 12; 13; 32]%N.

Definition sextet (c : N) : option N :=
  if ((65 <=? c) && (c <=? 90))%N then Some (c - 65)%N
  else if ((97 <=? c) && (c <=? 122))%N then Some (c - 71)%N
  else if ((48 <=? c) && (c <=? 57))%N then Some (c + 4)%N
  else if (c =? 43)%N then Some 62%N
  else if (c =? 47)%N then Some 63%N
  else None.

Definition strip_padding (s : jsstring) : jsstring :=
  if (List.length s mod 4 =? 0)%nat then
    match rev s with
    | c1 :: r1 =>
      if (c1 =? 61)%N then
        match r1 with
        | c2 :: r2 => if (c2 =? 61)%N then rev r2 else rev r1
        | [] => rev r1
        end
      else s
    | [] => s
    end
  else s.

Fixpoint sextets_to_bytes (l : list N) : list N :=
  match l with
  | a :: b :: c :: d :: rest =>
    let n := (((a * 64 + b) * 64 + c) * 64 + d)%N in
    (n / 65536)%N :: ((n / 256) mod 256)%N :: (n mod 256)%N :: sextets_to_bytes rest
  | [a; b; c] =>
    let n := (((a * 64 + b) * 64 + c) / 4)%N in [(n / 256)%N; (n mod 256)%N]
  | [a; b] => [((a * 64 + b) / 16)%N]
  | _ => []
  end.

Definition atob (data : jsstring) : option jsstring :=
  let data := List.filter (fun c => negb (is_ascii_whitespace c)) data in
  let data := strip_padding data in
  if (List.length data mod 4 =? 1)%nat then None
  else sextets ← mapM sextet data; Some (sextets_to_bytes sextets).

(** *** decodeBase64 *)

(** A store into a [Uint8Array]: the number modulo 256. *)
Definition to_uint8 (n : N) : Byte.byte :=
  default Byte.x00 (Byte.of_N (n mod 256)%N).

(** [bytes[i] = binaryString.charCodeAt(i)] for every index of the string
    [atob] returned. *)
Definition decodeBase64 (base64 : jsstring) : option (list Byte.byte) :=
  binaryString ← atob base64; Some (map to_uint8 binaryString).

(** The base64 encoding of RFC 4648, with padding, in which the service
    sends inline data: what [decodeBase64] is there to undo. *)
Definition digit (s : N) : N :=
  if (s <? 26)%N then (s + 65)%N
  else if (s <? 52)%N then (s + 71)%N
  else if (s <? 62)%N then (s - 4)%N
  else if (s =? 62)%N then 43%N
  else 47%N.

Fixpoint encode (bytes : list Byte.byte) : jsstring :=
  match bytes with
  | a :: b :: c :: rest =>
    let n := (Byte.to_N a * 65536 + Byte.to_N b * 256 + Byte.to_N c)%N in
    digit (n / 262144) :: digit ((n / 4096) mod 64) :: digit ((n / 64) mod 64)
      :: digit (n mod 64) :: encode rest
  | [a; b] =>
    let n := ((Byte.to_N a * 256 + Byte.to_N b) * 4)%N in
    [digit (n / 4096); digit ((n / 64) mod 64); digit (n mod 64); 61%N]
  | [a] =>
    let n := (Byte.to_N a * 16)%N in
    [digit (n / 64); digit (n mod 64); 61%N; 61%N]
  | [] => []
  end.

(** The sextets of the encoding, before they are written as characters. *)
Fixpoint sextets_of (bytes : list Byte.byte) : list N :=
  match bytes with
  | a :: b :: c :: rest =>
    let n := (Byte.to_N a * 65536 + Byte.to_N b * 256 + Byte.to_N c)%N in
    (n / 262144)%N :: ((n / 4096) mod 64)%N :: ((n / 64) mod 64)%N
      :: (n mod 64)%N :: sextets_of rest
  | [a; b] =>
    let n := ((Byte.to_N a * 256 + Byte.to_N b) * 4)%N in
    [(n / 4096)%N; ((n / 64) mod 64)%N; (n mod 64)%N]
  | [a] =>
    let n := (Byte.to_N a * 16)%N in [(n / 64)%N; (n mod 64)%N]
  | [] => []
  end.

(** The padding that completes the last group of four characters. *)
Definition padding (bytes : list Byte.byte) : jsstring :=
  match (List.length bytes mod 3)%nat with
  | 1%nat => [61; 61]%N
  | 2%nat => [61]%N
  | _ => []
  end.

(** *** playTTS *)

(** What can be thrown inside the [try] block of [playTTS]. *)
Inductive raised :=
| InvalidCharacterError
| context_refused
| thrown (e : exn).

Inductive attempt (A : Type) :=
| finished (a : A)
| raise (r : raised).
Arguments finished {A} a.
Arguments raise {A} r.

(** What [playTTS] does besides returning: it starts the playback of a
    buffer, or writes to the console. *)
Inductive sound :=
| source_start (buffer : AudioBuffer)
| console_error_TTS.

(** What a call takes from outside: how the request settles, and whether
    the platform lets the page construct one more audio context. *)
Record speech_env := {
  speech_reply : settled GenerateContentResponse;
  context_created : bool }.

(** [response.candidates?.[0]?.content?.parts?.[0]?.inlineData?.data] *)
Definition first_audio (response : GenerateContentResponse) : option jsstring :=
  cs ← candidates response;
  c ← head cs;
  ct ← content c;
  ps ← parts ct;
  part ← head ps;
  blob ← inlineData part;
  data blob.

(** The [try] block. *)
Definition speak (env : speech_env) : attempt (list sound) :=
  match speech_reply env with
  | Rejected => raise (thrown Rejection)
  | Fulfilled response =>
    if truthy_opt (first_audio response) then
      if context_created env then
        match decodeBase64 (default [] (first_audio response)) with
        | None => raise InvalidCharacterError
        | Some bytes =>
          match pcmToAudioBuffer bytes (Some 24000%Z) with
          | Throw e => raise (thrown e)
          | Return audioBuffer => finished [source_start audioBuffer]
          end
        end
      else raise context_refused
    else finished []
  end.

(** [try { ... } catch (e) { console.error("TTS failed", e); }] *)
Definition playTTS (env : speech_env) : attempt (list sound) :=
  match speak env with
  | finished sounds => finished sounds
  | raise _ => finished [console_error_TTS]
  end.

(** *** The speaker button of the result card *)

(** [handleAudio] of the result card, on its [isPlayingAudio] state: no
    [try] around the awaited call, so an exception of [playTTS] would
    leave the state set. *)
Definition handleAudio (env : speech_env) (isPlayingAudio : bool)
  : attempt (bool * list sound) :=
  if isPlayingAudio then finished (isPlayingAudio, [])
  else
    match playTTS env with
    | finished sounds => finished (false, sounds)
    | raise r => raise r
    end.

End tts.

(** ** components/ResultCard.tsx: the chat of the result card *)

Module ResultCard.

Inductive Role := user | model.

(** [ChatMessage] of [types.ts]. *)
Record ChatMessage := {
  role : Role;
  text : jsstring }.

(** What the chat handler does besides changing the state. *)
Inductive chat_effect :=
| sendChatMessage_called (history : list ChatMessage) (newMessage contextTerm : jsstring)
| chat_console_error.

(** [sendChatMessage] of the gateway, on how the request settles:
    [return result.text || "I couldn't understand that."] *)
Definition sendChatMessage (reply : settled geminiService.GenerateContentResponse)
  : completion jsstring :=
  match reply with
  | Rejected => Throw Rejection
  | Fulfilled result =>
    Return (if truthy_opt (geminiService.text result)
            then default [] (geminiService.text result)
            else js "I couldn't understand that.")
  end.

(** The chat state of the card. *)
Record state := {
  chatInput : jsstring;
  chatHistory : list ChatMessage;
  isChatLoading : bool }.

Definition initial : state :=
  {| chatInput := []; chatHistory := []; isChatLoading := false |}.

(** [onChange={(e) => setChatInput(e.target.value)}] *)
Definition setChatInput (s : jsstring) (st : state) : state :=
  {| chatInput := s; chatHistory := chatHistory st; isChatLoading := isChatLoading st |}.

(** One run of [handleSendChat] on the card of [data], from the click to
    the [finally].  The history passed to the gateway is the one the
    handler closed over, without the message being sent. *)
Definition handleSendChat (data : DictionaryEntry)
  (reply : settled geminiService.GenerateContentResponse) (st : state)
  : state * list chat_effect :=
  if negb (truthy_string (trim (chatInput st))) then (st, [])
  else
    let newUserMsg := {| role := user; text := chatInput st |} in
    let asked := chatHistory st ++ [newUserMsg] in
    let call := sendChatMessage_called (chatHistory st) (chatInput st) (term data) in
    match sendChatMessage reply with
    | Return responseText =>
      let newModelMsg := {| role := model; text := responseText |} in
      ({| chatInput := []; chatHistory := asked ++ [newModelMsg];
          isChatLoading := false |},
       [call])
    | Throw _ =>
      ({| chatInput := []; chatHistory := asked; isChatLoading := false |},
       [call; chat_console_error])
    end.

(** A conversation in which every message waits for the request before
    it to settle: each turn types a message, sends it, and its request
    settles. *)
Fixpoint converse (data : DictionaryEntry)
  (turns : list (jsstring * settled geminiService.GenerateContentResponse))
  (st : state) : state * list chat_effect :=
  match turns with
  | [] => (st, [])
  | (message, reply) :: rest =>
    let '(st1, trace1) := handleSendChat data reply (setChatInput message st) in
    let '(st2, trace2) := converse data rest st1 in
    (st2, trace1 ++ trace2)
  end.

(** The roles of a transcript in which questions and answers take turns,
    the question first. *)
Fixpoint alternating (history : list ChatMessage) : Prop :=
  match history with
  | [] => True
  | question :: answer :: rest =>
    role question = user /\ role answer = model /\ alternating rest
  | _ => False
  end.

(** *** The handler in its two halves

    [handleSendChat] is asynchronous: it runs to its [await], the card is
    rendered again, with the question in the transcript and the spinner
    on, and the rest of the handler runs when the request settles.  In
    between the card takes events: the Send button is disabled while
    [isChatLoading], the [onKeyDown] of the input is not. *)

(** From the call of the handler to its [await]. *)
Definition ask (data : DictionaryEntry) (st : state) : state * list chat_effect :=
  if negb (truthy_string (trim (chatInput st))) then (st, [])
  else
    let newUserMsg := {| role := user; text := chatInput st |} in
    ({| chatInput := []; chatHistory := chatHistory st ++ [newUserMsg];
        isChatLoading := true |},
     [sendChatMessage_called (chatHistory st) (chatInput st) (term data)]).

(** From the settlement of the request to the end of the [finally]; the
    two setters are given functions of the state of that moment. *)
Definition answer (reply : settled geminiService.GenerateContentResponse) (st : state)
  : state * list chat_effect :=
  match sendChatMessage reply with
  | Return responseText =>
    let newModelMsg := {| role := model; text := responseText |} in
    ({| chatInput := chatInput st; chatHistory := chatHistory st ++ [newModelMsg];
        isChatLoading := false |},
     [])
  | Throw _ =>
    ({| chatInput := chatInput st; chatHistory := chatHistory st;
        isChatLoading := false |},
     [chat_console_error])
  end.

(** What happens to the chat of a card. *)
Inductive event :=
| TypeMessage (s : jsstring)
| PressEnter
| ClickSend
| RequestSettles (reply : settled geminiService.GenerateContentResponse).

(** The card between two events: the state it shows and the number of
    requests that have not settled. *)
Record card := {
  shown : state;
  pending : nat }.

Definition opened : card := {| shown := initial; pending := 0 |}.

(** A call of [handleSendChat]: each call of the gateway leaves one more
    request pending. *)
Definition send (data : DictionaryEntry) (c : card) : card * list chat_effect :=
  let '(st, calls) := ask data (shown c) in
  ({| shown := st; pending := pending c + List.length calls |}, calls).

Definition react (data : DictionaryEntry) (ev : event) (c : card)
  : card * list chat_effect :=
  match ev with
  | TypeMessage s => ({| shown := setChatInput s (shown c); pending := pending c |}, [])
  | PressEnter => send data c
  | ClickSend => if isChatLoading (shown c) then (c, []) else send data c
  | RequestSettles reply =>
    match pending c with
    | O => (c, [])
    | S n =>
      let '(st, logged) := answer reply (shown c) in
      ({| shown := st; pending := n |}, logged)
    end
  end.

Fixpoint chat (data : DictionaryEntry) (events : list event) (c : card)
  : card * list chat_effect :=
  match events with
  | [] => (c, [])
  | ev :: rest =>
    let '(c1, trace1) := react data ev c in
    let '(c2, trace2) := chat data rest c1 in
    (c2, trace1 ++ trace2)
  end.

(** The events of the turns of [converse]. *)
Definition in_sequence
  (turns : list (jsstring * settled geminiService.GenerateContentResponse))
  : list event :=
  turns ≫= fun turn => [TypeMessage turn.1; ClickSend; RequestSettles turn.2].

(** A card on which questions and answers take turns: no more than one
    request is pending, the spinner is on while it is, and the transcript
    alternates, with the question of the pending request at its end. *)
Definition in_turn (c : card) : Prop :=
  match pending c with
  | 0%nat => isChatLoading (shown c) = false /\ alternating (chatHistory (shown c))
  | 1%nat =>
    isChatLoading (shown c) = true
    /\ exists history question,
        chatHistory (shown c) = history ++ [question]
        /\ alternating history /\ role question = user
  | _ => False
  end.

End ResultCard.

(** ** Sample sessions *)

Module scenarios.

(** Two searches, each saved, a look at the second card, and the removal
    of the first entry. *)
Definition session : list App.action :=
  [App.TypeSearchTerm (js "toque");
   App.ClickExplain (samples.env_no_image samples.payload);
   App.ClickSave;
   App.TypeSearchTerm (js "double-double");
   App.ClickExplain (samples.env_no_image samples.payload);
   App.ClickSave;
   App.Navigate FLASHCARDS;
   App.ClickNext;
   App.Navigate NOTEBOOK;
   App.ClickRemove 0].

(** The study view on a notebook of two entries, at the first card. *)
Definition studying : App.state :=
  App.setView FLASHCARDS (App.init [samples.toque; samples.double_double]).

(** The notebook view on the same notebook, with a story of an earlier run
    in the state. *)
Definition browsing : App.state :=
  App.setStory (Some (js "Once upon a time."))
    (App.setView NOTEBOOK (App.init [samples.toque; samples.double_double])).

(** A visit of the notebook that asks for a story and gets an empty
    response. *)
Definition storytelling : list App.action :=
  [App.Navigate NOTEBOOK;
   App.ClickStoryMode (Fulfilled (samples.text_response []))].

(** A response whose first part carries the five bytes of [samples.pcm]
    as inline data, and a call that gets it. *)
Definition audio_response : geminiService.GenerateContentResponse :=
  {| geminiService.text := None;
     geminiService.candidates :=
       Some [ {| geminiService.content :=
                   Some {| geminiService.parts :=
                             Some [ {| geminiService.inlineData :=
                                         Some {| geminiService.mimeType :=
                                                   Some (js "audio/L16;codec=pcm;rate=24000");
                                                 geminiService.data :=
                                                   Some (tts.encode samples.pcm) |} |} ] |} |} ] |}.

Definition speaking : tts.speech_env :=
  {| tts.speech_reply := Fulfilled audio_response; tts.context_created := true |}.

(** A term of white space only in the search box. *)
Definition blank : App.state := App.setSearchTerm (js "   ") (App.init []).

(** A response whose first candidate holds a text part and then an image. *)
Definition image_response : geminiService.GenerateContentResponse :=
  {| geminiService.text := None;
     geminiService.candidates :=
       Some [ {| geminiService.content :=
                   Some {| geminiService.parts :=
                             Some [ {| geminiService.inlineData := None |};
                                    {| geminiService.inlineData :=
                                         Some {| geminiService.mimeType := Some (js "image/png");
                                                 geminiService.data := Some (js "iVBORw0KGgo=") |} |} ] |} |} ] |}.

End scenarios.

(** * Properties *)

(** ** The parser: its fuel *)

Section JSONParser.

Import JSON.

Implicit Types (s r : jsstring) (fuel : nat).

Lemma skip_ws_length s : length (skip_ws s) <= length s.
Proof. induction s as [|c s IH]; simpl; [done|]. destruct (is_ws c); simpl; lia. Qed.

Lemma strip_length lit s r : strip lit s = Some r -> length r + length lit = length s.
Proof.
  revert s. induction lit as [|a lit IH]; intros [|b s]; simpl; try done.
  - intros [= <-]. simpl. lia.
  - intros [= <-]. simpl. lia.
  - destruct (a =? b)%N; [|done]. intros ?%IH. lia.
Qed.

Lemma parse_chars_length s acc x r :
  parse_chars s acc = Some (x, r) -> length r < length s.
Proof.
  assert (forall n s acc, length s <= n ->
            parse_chars s acc = Some (x, r) -> length r < length s) as Hn;
    [|by apply (Hn (length s))].
  clear s acc. induction n as [|n IH]; intros [|c s] acc Hlen; simpl in *;
    try done; [lia|].
  assert (forall s' acc', length s' <= length s ->
            parse_chars s' acc' = Some (x, r) -> length r < S (length s)) as IH'.
  { intros s' acc' Hs' Hp. apply IH in Hp; lia. }
  destruct (c =? 34)%N; [intros [= _ <-]; lia|].
  destruct (c =? 92)%N.
  - destruct s as [|e s]; [done|].
    repeat match goal with
    | |- context [if ?b then _ else _] =>
      destruct b; [apply IH'; simpl; lia|]
    end.
    destruct (e =? 117)%N; [|done].
    destruct s as [|h1 [|h2 [|h3 [|h4 s]]]]; try done.
    destruct (hex_value h1), (hex_value h2), (hex_value h3), (hex_value h4); try done.
    apply IH'; simpl; lia.
  - destruct (c <? 32)%N; [done|]. apply IH'; simpl; lia.
Qed.

Lemma digits_length s d r : digits s = (d, r) -> length d + length r = length s.
Proof.
  revert d r. induction s as [|c s IH]; simpl; intros d r.
  - by intros [= <- <-].
  - destruct (is_digit c).
    + destruct (digits s) as [d' r'] eqn:Hd. intros [= <- <-].
      specialize (IH _ _ eq_refl). simpl. lia.
    + intros [= <- <-]. simpl. lia.
Qed.

Lemma parse_number_length s n r :
  parse_number s = Some (n, r) -> length r < length s.
Proof.
  unfold parse_number.
  set (signed := match s with
                 | c :: r0 => if (c =? 45)%N then ([c], r0) else ([], s)
                 | [] => ([], s) end).
  assert (length signed.2 <= length s) as Hsign.
  { subst signed. destruct s as [|c s]; simpl; [done|].
    destruct (c =? 45)%N; simpl; lia. }
  destruct signed as [sign s1]. simpl in Hsign.
  destruct (digits s1) as [int s2] eqn:Hint. apply digits_length in Hint.
  destruct int as [|d ds]; [done|]. simpl in Hint.
  destruct (_ && _); [done|].
  assert (forall f s3, match s2 with
     | c :: r0 => if (c =? 46)%N then
                   let '(f, s3) := digits r0 in
                   match f with [] => None | _ => Some (c :: f, s3) end
                 else Some ([], s2)
     | [] => Some ([], s2) end = Some (f, s3) -> length s3 <= length s2) as Hfrac.
  { intros f s3. destruct s2 as [|c s2]; [by intros [= _ <-]|].
    destruct (c =? 46)%N; [|by intros [= _ <-]].
    destruct (digits s2) as [f' s3'] eqn:Hf. apply digits_length in Hf.
    destruct f'; [done|]. intros [= _ <-]. simpl in *. lia. }
  destruct (match s2 with [] => _ | _ => _ end) as [[f s3]|]; [|done].
  specialize (Hfrac _ _ eq_refl).
  assert (forall e s4, match s3 with
     | c :: r0 =>
         if (c =? 101)%N || (c =? 69)%N then
           let '(sg, r1) := match r0 with
             | c1 :: r' => if (c1 =? 43)%N || (c1 =? 45)%N then ([c1], r') else ([], r0)
             | [] => ([], r0) end in
           let '(e, s4) := digits r1 in
           match e with [] => None | _ => Some (c :: sg ++ e, s4) end
         else Some ([], s3)
     | [] => Some ([], s3) end = Some (e, s4) -> length s4 <= length s3) as Hexp.
  { intros e s4. destruct s3 as [|c s3]; [by intros [= _ <-]|].
    destruct (_ || _); [|by intros [= _ <-]].
    destruct s3 as [|c1 s3].
    - simpl. done.
    - destruct (_ || _).
      + destruct (digits s3) as [e' s4'] eqn:He. apply digits_length in He.
        destruct e'; [done|]. intros [= _ <-]. simpl in *. lia.
      + destruct (digits (c1 :: s3)) as [e' s4'] eqn:He. apply digits_length in He.
        destruct e'; [done|]. intros [= _ <-]. simpl in *. lia. }
  destruct (match s3 with [] => _ | _ => _ end) as [[e s4]|]; [|done].
  specialize (Hexp _ _ eq_refl).
  intros [= _ <-]. lia.
Qed.

Lemma value_ok_S fuel : elements_ok fuel -> members_ok fuel -> value_ok (S fuel).
Proof.
  intros Helems Hmembers s res H.
  cut (length res.2 < length s
       /\ forall fuel', 2 * length s <= fuel' -> parse_value (S fuel') s = Some res).
  { intros [? Hf]. split; [done|]. intros [|fuel'] ?; [lia|]. apply Hf. lia. }
  revert H. cbn [parse_value parse_elements parse_members].
  pose proof (skip_ws_length s) as Hs.
  destruct (skip_ws s) as [|c r0]; [done|]. simpl in Hs.
  destruct (c =? 34)%N.
  { destruct (parse_chars r0 []) as [[str r1]|] eqn:Hstr; [|done].
    apply parse_chars_length in Hstr. simpl. intros [= <-]. simpl. split; [lia|done]. }
  destruct (c =? 91)%N.
  { pose proof (skip_ws_length r0) as Hs1.
    destruct (skip_ws r0) as [|c1 r1]; [done|]. simpl in Hs1.
    destruct (c1 =? 93)%N; [intros [= <-]; simpl; split; [lia|done]|].
    intros [Hlen Hfuel]%Helems. split; [lia|].
    intros fuel' Hf. apply Hfuel. lia. }
  destruct (c =? 123)%N.
  { pose proof (skip_ws_length r0) as Hs1.
    destruct (skip_ws r0) as [|c1 r1]; [done|]. simpl in Hs1.
    destruct (c1 =? 125)%N; [intros [= <-]; simpl; split; [lia|done]|].
    intros [Hlen Hfuel]%Hmembers. split; [lia|].
    intros fuel' Hf. apply Hfuel. lia. }
  destruct (_ || _).
  { destruct (parse_number (c :: r0)) as [[n r1]|] eqn:Hnum; [|done].
    apply parse_number_length in Hnum. simpl in *. intros [= <-]. simpl. split; [lia|done]. }
  destruct (strip (js "null") (c :: r0)) as [r1|] eqn:Hnull.
  { apply strip_length in Hnull. change (length (js "null")) with 4 in Hnull. simpl in Hnull.
    intros [= <-]. simpl. split; [lia|done]. }
  destruct (strip (js "true") (c :: r0)) as [r1|] eqn:Htrue.
  { apply strip_length in Htrue. change (length (js "true")) with 4 in Htrue. simpl in Htrue.
    intros [= <-]. simpl. split; [lia|done]. }
  destruct (strip (js "false") (c :: r0)) as [r1|] eqn:Hfalse; [|done].
  apply strip_length in Hfalse. change (length (js "false")) with 5 in Hfalse. simpl in Hfalse.
  intros [= <-]. simpl. split; [lia|done].
Qed.

Lemma elements_ok_S fuel : value_ok fuel -> elements_ok fuel -> elements_ok (S fuel).
Proof.
  intros Hvalue Helems s acc res H.
  cut (length res.2 < length s
       /\ forall fuel', 2 * length s + 1 <= fuel' ->
            parse_elements (S fuel') s acc = Some res).
  { intros [? Hf]. split; [done|]. intros [|fuel'] ?; [lia|]. apply Hf. lia. }
  revert H. cbn [parse_value parse_elements parse_members].
  destruct (parse_value fuel s) as [[v r]|] eqn:Hv; [|done].
  apply Hvalue in Hv as [Hlen Hfuel]. simpl in Hlen. simpl.
  pose proof (skip_ws_length r) as Hr.
  destruct (skip_ws r) as [|c r1] eqn:Hskip; [done|]. simpl in Hr.
  destruct (c =? 44)%N eqn:Hcomma.
  { intros [Hlen1 Hfuel1]%Helems. split; [lia|].
    intros fuel' Hf. rewrite Hfuel by lia. simpl. rewrite Hskip, Hcomma.
    apply Hfuel1. lia. }
  destruct (c =? 93)%N eqn:Hclose; [|done].
  intros [= <-]. simpl. split; [lia|].
  intros fuel' Hf. rewrite Hfuel by lia. simpl. by rewrite Hskip, Hcomma, Hclose.
Qed.

Lemma members_ok_S fuel : value_ok fuel -> members_ok fuel -> members_ok (S fuel).
Proof.
  intros Hvalue Hmembers s acc res H.
  cut (length res.2 < length s
       /\ forall fuel', 2 * length s + 1 <= fuel' ->
            parse_members (S fuel') s acc = Some res).
  { intros [? Hf]. split; [done|]. intros [|fuel'] ?; [lia|]. apply Hf. lia. }
  revert H. cbn [parse_value parse_elements parse_members].
  pose proof (skip_ws_length s) as Hs.
  destruct (skip_ws s) as [|c r]; [done|]. simpl in Hs.
  destruct (c =? 34)%N; [|done].
  destruct (parse_chars r []) as [[k r1]|] eqn:Hk; [|done].
  apply parse_chars_length in Hk. simpl.
  pose proof (skip_ws_length r1) as Hr1.
  destruct (skip_ws r1) as [|c1 r2]; [done|]. simpl in Hr1.
  destruct (c1 =? 58)%N; [|done].
  destruct (parse_value fuel r2) as [[v r3]|] eqn:Hv; [|done].
  apply Hvalue in Hv as [Hlen Hfuel]. simpl in Hlen. simpl.
  pose proof (skip_ws_length r3) as Hr3.
  destruct (skip_ws r3) as [|c2 r4] eqn:Hskip; [done|]. simpl in Hr3.
  destruct (c2 =? 44)%N eqn:Hcomma.
  { intros [Hlen1 Hfuel1]%Hmembers. split; [lia|].
    intros fuel' Hf. rewrite Hfuel by lia. simpl. rewrite Hskip, Hcomma.
    apply Hfuel1. lia. }
  destruct (c2 =? 125)%N eqn:Hclose; [|done].
  intros [= <-]. simpl. split; [lia|].
  intros fuel' Hf. rewrite Hfuel by lia. simpl. by rewrite Hskip, Hcomma, Hclose.
Qed.

Lemma descent_ok fuel : value_ok fuel /\ elements_ok fuel /\ members_ok fuel.
Proof.
  induction fuel as [|fuel (Hv & He & Hm)].
  - split; [|split]; by intros ?.
  - split; [by apply value_ok_S|]. split; [by apply elements_ok_S | by apply members_ok_S].
Qed.

(** The fuel [read] gives the descent is all it can use: whatever some
    amount of fuel reads of a text, [read]'s amount reads as well. *)
Lemma read_fuel_suffices text fuel v r :
  parse_value fuel text = Some (v, r) ->
  parse_value (2 * length text + 2) text = Some (v, r).
Proof.
  intros H. destruct (descent_ok fuel) as [Hv _].
  apply Hv in H as [_ Hfuel]. apply Hfuel. lia.
Qed.

(** [read] finds the value of a text exactly when the descent, with fuel
    enough, reads a value and nothing but white space after it. *)
Lemma read_iff text v :
  read text = Some v <->
  exists fuel r, parse_value fuel text = Some (v, r) /\ skip_ws r = [].
Proof.
  unfold read. split.
  - destruct (parse_value _ text) as [[v' r]|] eqn:Hv; [|done].
    destruct (skip_ws r) eqn:Hr; [|done]. intros [= <-]. by eexists _, _.
  - intros (fuel & r & Hv & Hr). by rewrite (read_fuel_suffices _ _ _ _ Hv), Hr.
Qed.

End JSONParser.

(** ** The notebook store: [toggleSave] *)

Section NotebookStore.

Implicit Types (nb prev : list DictionaryEntry) (e entry : DictionaryEntry).
Implicit Types (t : jsstring).

Lemma find_term_None nb t :
  List.find (fun n => bool_decide (term n = t)) nb = None <-> t ∉ term <$> nb.
Proof.
  induction nb as [|n nb IH]; simpl.
  - split; [intros _; apply not_elem_of_nil | done].
  - rewrite not_elem_of_cons. case_bool_decide as Hn.
    + split; [done | intros [Hne _]; by destruct Hne].
    + rewrite IH. split; [intros ?; split; [by intros -> | done] | tauto].
Qed.

Lemma find_term_Some nb t :
  t ∈ term <$> nb ->
  exists n, List.find (fun n => bool_decide (term n = t)) nb = Some n.
Proof.
  intros Hin.
  destruct (List.find _ nb) as [n|] eqn:Hfind; [by exists n|].
  by apply find_term_None in Hfind.
Qed.

Lemma toggle_absent nb e :
  term e ∉ term <$> nb -> App.toggle nb e = nb ++ [e].
Proof.
  intros Hnot. unfold App.toggle, App.toggleSave.
  apply find_term_None in Hnot. by rewrite Hnot.
Qed.

Lemma toggle_present nb e :
  term e ∈ term <$> nb ->
  App.toggle nb e = filter (fun n => term n ≠ term e) nb.
Proof.
  intros Hin. unfold App.toggle, App.toggleSave.
  destruct (find_term_Some nb (term e) Hin) as [n Hn]. by rewrite Hn.
Qed.

Lemma filter_term_absent nb t :
  t ∉ term <$> nb -> filter (fun n => term n ≠ t) nb = nb.
Proof.
  induction nb as [|n nb IH]; [done|].
  rewrite fmap_cons, not_elem_of_cons. intros [Hne Hnot].
  rewrite filter_cons_True by congruence. by rewrite IH.
Qed.

Lemma filter_term_none nb t :
  t ∉ term <$> nb -> filter (fun n => term n = t) nb = [].
Proof.
  induction nb as [|n nb IH]; [done|].
  rewrite fmap_cons, not_elem_of_cons. intros [Hne Hnot].
  rewrite filter_cons_False by (by intros <-). by apply IH.
Qed.

Lemma filter_term_removes nb t :
  t ∉ term <$> filter (fun n => term n ≠ t) nb.
Proof.
  intros (n & Ht & Hn)%list_elem_of_fmap.
  apply list_elem_of_filter in Hn as [Hne _]. congruence.
Qed.

Lemma filter_term_NoDup nb t :
  NoDup (term <$> nb) -> NoDup (term <$> filter (fun n => term n ≠ t) nb).
Proof.
  induction nb as [|n nb IH]; [done|].
  rewrite fmap_cons, NoDup_cons. intros [Hnot Hnd].
  rewrite filter_cons. case_decide; [|by apply IH].
  rewrite fmap_cons, NoDup_cons. split; [|by apply IH].
  intros (m & Hm & Hin)%list_elem_of_fmap.
  apply list_elem_of_filter in Hin as [_ Hin].
  apply Hnot, list_elem_of_fmap. eauto.
Qed.

(** C1: on a collection that holds no entry of the term, a toggle appends
    the entry, so the collection grows by one and holds exactly one entry
    of that term; a second toggle, with any entry of the same term, gives
    back the collection the first one started from, and so its size. *)
Theorem toggle_round_trip nb e e' :
  term e ∉ term <$> nb ->
  term e' = term e ->
  App.toggle nb e = nb ++ [e]
  /\ length (App.toggle nb e) = S (length nb)
  /\ filter (fun n => term n = term e) (App.toggle nb e) = [e]
  /\ App.toggle (App.toggle nb e) e' = nb
  /\ length (App.toggle (App.toggle nb e) e') = length nb.
Proof.
  intros Hnot Hsame.
  assert (Hback : App.toggle (nb ++ [e]) e' = nb).
  { rewrite toggle_present.
    - rewrite Hsame, filter_app, filter_term_absent by done.
      rewrite filter_cons_False by (intros Hne; by apply Hne).
      by rewrite filter_nil, app_nil_r.
    - rewrite Hsame, fmap_app. apply elem_of_app. right. apply list_elem_of_here. }
  rewrite toggle_absent by done. repeat split.
  - rewrite length_app. simpl. lia.
  - rewrite filter_app, filter_cons_True, filter_nil by done.
    by rewrite filter_term_none.
  - done.
  - by rewrite Hback.
Qed.

Lemma toggle_round_trip_witness :
  App.toggle [samples.double_double] samples.toque
    = [samples.double_double; samples.toque]
  /\ length (App.toggle [samples.double_double] samples.toque) = 2%nat
  /\ filter (fun n => term n = term samples.toque)
       (App.toggle [samples.double_double] samples.toque) = [samples.toque]
  /\ App.toggle (App.toggle [samples.double_double] samples.toque)
       samples.toque_again = [samples.double_double]
  /\ length (App.toggle (App.toggle [samples.double_double] samples.toque)
               samples.toque_again) = 1%nat.
Proof.
  apply (toggle_round_trip [samples.double_double] samples.toque samples.toque_again).
  - apply (bool_decide_unpack _). vm_compute. exact I.
  - reflexivity.
Defined.

(** C3: a toggle keeps the terms of the collection pairwise distinct; in
    particular a toggle with a term the collection holds inserts nothing:
    the collection it leaves holds no entry of that term. *)
Theorem toggle_keeps_terms_unique nb e :
  NoDup (term <$> nb) ->
  NoDup (term <$> App.toggle nb e)
  /\ (term e ∈ term <$> nb -> term e ∉ term <$> App.toggle nb e).
Proof.
  intros Hnd. split.
  - destruct (decide (term e ∈ term <$> nb)) as [Hin|Hnot].
    + rewrite toggle_present by done. by apply filter_term_NoDup.
    + rewrite toggle_absent, fmap_app by done.
      apply NoDup_app. split; [done|]. split; [|apply NoDup_singleton].
      intros t Ht ->%list_elem_of_singleton. done.
  - intros Hin. rewrite toggle_present by done. apply filter_term_removes.
Qed.

Lemma toggle_keeps_terms_unique_witness :
  NoDup (term <$> App.toggle [samples.toque; samples.double_double] samples.toque_again)
  /\ (term samples.toque_again ∈ term <$> [samples.toque; samples.double_double] ->
      term samples.toque_again
        ∉ term <$> App.toggle [samples.toque; samples.double_double] samples.toque_again).
Proof.
  apply (toggle_keeps_terms_unique [samples.toque; samples.double_double]
           samples.toque_again).
  apply (bool_decide_unpack _). vm_compute. exact I.
Defined.

End NotebookStore.

(** ** The view controller: what the actions do to the notebook *)

Section ViewController.

Implicit Types (st : App.state) (a : App.action) (tr : list effect).

(** The four ways a run of [handleSearch] ends. *)
Lemma handleSearch_cases env st :
  App.handleSearch env st = App.Finished st []
  \/ App.handleSearch env st
     = App.Finished
         (App.setIsSearching false
            (App.setCurrentResult None (App.setIsSearching true st)))
         [explainTerm_called (App.searchTerm st) (App.context st);
          alert App.generic_alert; console_error]
  \/ (exists payload, App.handleSearch env st = App.Untyped payload)
  \/ (exists entry tr,
        App.handleSearch env st
        = App.Finished
            (App.setIsSearching false
               (App.setCurrentResult (Some entry) (App.setIsSearching true st)))
            tr).
Proof.
  unfold App.handleSearch.
  destruct (negb _); [by left|].
  destruct (geminiService.explainTerm _) as [payload|e]; [|right; by left].
  destruct payload; [right; by left|..];
    (destruct (geminiService.explanation_of_json _);
     [|right; right; left; by eexists]);
    destruct (geminiService.generateConceptImage _);
    right; right; right; by eexists _, _.
Qed.

Lemma handleSearch_notebook env st st' tr :
  App.handleSearch env st = App.Finished st' tr ->
  App.notebook st' = App.notebook st.
Proof.
  destruct (handleSearch_cases env st)
    as [->|[->|[[payload ->]|(entry & tr' & ->)]]];
    [by intros [= <- _]..|done|by intros [= <- _]].
Qed.

Lemma handleSearch_cursor env st st' tr :
  App.handleSearch env st = App.Finished st' tr ->
  App.flashcardIndex st' = App.flashcardIndex st.
Proof.
  destruct (handleSearch_cases env st)
    as [->|[->|[[payload ->]|(entry & tr' & ->)]]];
    [by intros [= <- _]..|done|by intros [= <- _]].
Qed.


Lemma handleGenerateStory_notebook reply st :
  App.notebook (App.handleGenerateStory reply st).1 = App.notebook st.
Proof.
  unfold App.handleGenerateStory.
  destruct (_ =? _)%nat; [done|].
  by destruct (geminiService.generateStoryFromList reply).
Qed.

(** C2: a toggle filters out the entries of the term when the collection
    holds one, and appends the entry at the end otherwise; and of the
    actions the screens offer, only the two that call [toggleSave] (the
    bookmark of the result card and the cross of a notebook row) leave a
    notebook other than the one they found, which is then the toggle of
    it.  (The state is set once more, by the load effect on mount, before
    any action.) *)
Theorem toggle_is_the_sole_mutation :
  (forall (nb : list DictionaryEntry) e,
      term e ∈ term <$> nb ->
      App.toggle nb e = filter (fun n => term n ≠ term e) nb)
  /\ (forall (nb : list DictionaryEntry) e,
      term e ∉ term <$> nb -> App.toggle nb e = nb ++ [e])
  /\ (forall a st st' tr,
      App.step a st = App.Finished st' tr ->
      App.notebook st' = App.notebook st
      \/ exists entry,
          (a = App.ClickSave \/ exists row, a = App.ClickRemove row)
          /\ App.notebook st' = App.toggle (App.notebook st) entry).
Proof.
  split; [exact toggle_present|]. split; [exact toggle_absent|].
  intros a st st' tr. unfold App.step.
  destruct (App.crashed st); [intros [= <- _]; by left|].
  destruct a as [s|s|env| |row|reply|v| |], (App.view st);
    try (intros [= <- _]; by left).
  - destruct (_ || _); [intros [= <- _]; by left|].
    intros H. left. by eapply handleSearch_notebook.
  - destruct (App.currentResult st) as [data|]; [|intros [= <- _]; by left].
    intros [= <- _]. right. exists data. split; [by left | done].
  - destruct (App.notebook st !! row) as [item|]; [|intros [= <- _]; by left].
    intros [= <- _]. right. exists item. split; [right; by exists row | done].
  - destruct (App.story_disabled st); [intros [= <- _]; by left|].
    pose proof (handleGenerateStory_notebook reply st) as Hnb.
    destruct (App.handleGenerateStory reply st) as [st1 tr1].
    intros [= <- _]. by left.
  - destruct v; intros [= <- _]; by left.
  - destruct v; intros [= <- _]; by left.
  - destruct v; intros [= <- _]; by left.
  - destruct v; intros [= <- _]; by left.
  - destruct (App.renderFlashcards st) as [[c|]|]; intros [= <- _]; by left.
  - destruct (App.renderFlashcards st) as [[c|]|]; intros [= <- _]; by left.
Qed.

End ViewController.

(** ** The load effect *)

Section Load.

Import JSON.

Lemma read_empty : read [] = None.
Proof. reflexivity. Qed.

Lemma load_Return saved nb : exists v, App.load saved nb = Return v.
Proof.
  destruct saved as [text|]; simpl; [|by eexists].
  destruct (truthy_string text); [|by eexists].
  unfold parse. destruct (read text); simpl; by eexists.
Qed.

(** The slot holds the text [null]: it parses, and the state that was
    typed as a list of entries holds [null], on which the notebook view
    then reads [length]. *)
Lemma loaded_null_is_no_collection :
  App.loaded (Some (js "null")) = Return JNull
  /\ ~ (exists v, App.loaded (Some (js "null")) = Return v /\ App.isArray v = true).
Proof.
  split; [reflexivity|].
  intros (v & Hv & Harr). vm_compute in Hv. injection Hv as <-. discriminate.
Qed.

(** C4, as the code has it: the load effect never throws; it yields the
    empty collection when the slot is absent, empty or holds a text that
    [JSON.parse] rejects, and the parsed value as it is, checked for
    nothing, when the text parses: a collection when that value is an
    array. *)
Theorem load_yields_empty_or_parsed (saved : option jsstring) :
  (exists v, App.loaded saved = Return v)
  /\ (saved = None \/ saved = Some [] \/ (exists t, saved = Some t /\ read t = None) ->
      App.loaded saved = Return (JArr []))
  /\ (forall t v, saved = Some t -> read t = Some v -> App.loaded saved = Return v)
  /\ (forall t items, saved = Some t -> read t = Some (JArr items) ->
      exists v, App.loaded saved = Return v /\ App.isArray v = true).
Proof.
  assert (Hparsed : forall t v, saved = Some t -> read t = Some v ->
                      App.loaded saved = Return v).
  { intros t v -> Hread. unfold App.loaded, App.load.
    destruct t as [|c t]; [by rewrite read_empty in Hread|].
    simpl. unfold parse. by rewrite Hread. }
  split; [apply load_Return|]. split; [|split; [exact Hparsed|]].
  - intros [->|[->|(t & -> & Hread)]]; [done..|].
    unfold App.loaded, App.load. destruct (truthy_string t); [|done].
    unfold parse. by rewrite Hread.
  - intros t items Hsaved Hread. exists (JArr items).
    split; [by eapply Hparsed | done].
Qed.

Example loaded_absent : App.loaded None = Return (JArr []).
Proof. reflexivity. Qed.

Example loaded_unparsable :
  App.loaded (Some (js "{not json")) = Return (JArr []).
Proof. reflexivity. Qed.

Example loaded_empty_list : App.loaded (Some (js "[]")) = Return (JArr []).
Proof. reflexivity. Qed.

End Load.

(** ** Story mode *)

Section StoryMode.

Implicit Types (st : App.state) (tr : list effect).
Implicit Types (reply : settled geminiService.GenerateContentResponse).

Lemma handleGenerateStory_trace reply st terms :
  generateStoryFromList_called terms ∈ (App.handleGenerateStory reply st).2 ->
  terms = term <$> App.notebook st.
Proof.
  unfold App.handleGenerateStory.
  destruct (_ =? _)%nat; simpl; [by intros ?%elem_of_nil|].
  destruct (geminiService.generateStoryFromList reply); simpl.
  - by intros [= ->]%list_elem_of_singleton.
  - intros [[= ->]|Hin]%elem_of_cons; [done|].
    by apply list_elem_of_singleton in Hin.
Qed.

Lemma handleGenerateStory_calls reply st :
  App.notebook st ≠ [] ->
  generateStoryFromList_called (term <$> App.notebook st)
    ∈ (App.handleGenerateStory reply st).2.
Proof.
  unfold App.handleGenerateStory. intros Hne.
  destruct (App.notebook st) as [|n nb] eqn:Hnb; [done|]. simpl.
  destruct (geminiService.generateStoryFromList reply); simpl; apply list_elem_of_here.
Qed.

Lemma story_disabled_spec st :
  App.story_disabled st = false <->
  (2 <= length (App.notebook st))%nat /\ App.isGeneratingStory st = false.
Proof.
  unfold App.story_disabled. rewrite orb_false_iff, Nat.ltb_ge. tauto.
Qed.

(** C5: the Story Mode button does nothing on a notebook of fewer than two
    entries; whenever it does call the story generation, the list it
    passes is the list of the terms of the notebook, in the order of the
    notebook, which is the order of saving since a save appends; so after
    saving "toque" and then "double-double" the list passed is
    ["toque", "double-double"]. *)
Theorem story_inputs_are_the_saved_terms :
  (forall st reply,
      (length (App.notebook st) < 2)%nat ->
      App.step (App.ClickStoryMode reply) st = App.Finished st [])
  /\ (forall st reply st' tr terms,
      App.step (App.ClickStoryMode reply) st = App.Finished st' tr ->
      generateStoryFromList_called terms ∈ tr ->
      terms = term <$> App.notebook st /\ (2 <= length (App.notebook st))%nat)
  /\ (forall st reply,
      App.view st = NOTEBOOK -> App.story_disabled st = false ->
      exists st' tr,
        App.step (App.ClickStoryMode reply) st = App.Finished st' tr
        /\ generateStoryFromList_called (term <$> App.notebook st) ∈ tr)
  /\ (forall (nb : list DictionaryEntry) e,
      term e ∉ term <$> nb ->
      term <$> App.toggle nb e = (term <$> nb) ++ [term e])
  /\ (forall e1 e2 reply st,
      term e1 = js "toque" -> term e2 = js "double-double" ->
      App.view st = NOTEBOOK -> App.isGeneratingStory st = false ->
      App.notebook st = App.toggle (App.toggle [] e1) e2 ->
      exists st' tr,
        App.step (App.ClickStoryMode reply) st = App.Finished st' tr
        /\ generateStoryFromList_called [js "toque"; js "double-double"] ∈ tr).
Proof.
  assert (Hcall : forall st reply,
    App.view st = NOTEBOOK -> App.story_disabled st = false ->
    exists st' tr,
      App.step (App.ClickStoryMode reply) st = App.Finished st' tr
      /\ generateStoryFromList_called (term <$> App.notebook st) ∈ tr).
  { intros st reply Hview Hen. unfold App.step, App.crashed.
    rewrite Hview, Hen.
    pose proof (handleGenerateStory_calls reply st) as Hin.
    destruct (App.handleGenerateStory reply st) as [st1 tr1].
    exists st1, tr1. split; [done|]. apply Hin.
    apply story_disabled_spec in Hen as [Hlen _].
    destruct (App.notebook st); [simpl in Hlen; lia | done]. }
  split; [|split; [|split; [exact Hcall|split]]].
  - intros st reply Hlen. unfold App.step.
    destruct (App.crashed st); [done|].
    destruct (App.view st); try done.
    unfold App.story_disabled. apply Nat.ltb_lt in Hlen. by rewrite Hlen.
  - intros st reply st' tr terms. unfold App.step.
    destruct (App.crashed st); [by intros [= _ <-] ?%elem_of_nil|].
    destruct (App.view st); try by intros [= _ <-] ?%elem_of_nil.
    destruct (App.story_disabled st) eqn:Hen; [by intros [= _ <-] ?%elem_of_nil|].
    pose proof (handleGenerateStory_trace reply st terms) as Htr.
    destruct (App.handleGenerateStory reply st) as [st1 tr1].
    intros [= _ <-] Hin. split; [by apply Htr|].
    by apply story_disabled_spec in Hen as [? _].
  - intros nb e Hnot. by rewrite toggle_absent, fmap_app.
  - intros e1 e2 reply st H1 H2 Hview Hgen Hnb.
    assert (Hterms : term <$> App.notebook st = [js "toque"; js "double-double"]).
    { rewrite Hnb. rewrite (toggle_absent [] e1) by apply not_elem_of_nil.
      rewrite toggle_absent.
      - simpl. by rewrite H1, H2.
      - simpl. rewrite H1, H2. by intros [=]%list_elem_of_singleton. }
    rewrite <- Hterms. apply Hcall; [done|].
    apply story_disabled_spec. split; [|done].
    rewrite <- (length_fmap term), Hterms. simpl. lia.
Qed.

End StoryMode.

(** ** The search flow *)

Section SearchFlow.

Import spec.

Implicit Types (st : App.state) (env : App.search_env) (tr : list effect).

Lemma explainTerm_Throw_iff reply :
  (exists e, geminiService.explainTerm reply = Throw e) <-> explain_fails reply.
Proof.
  unfold explain_fails, geminiService.explainTerm, JSON.parse. split.
  - intros [e He]. destruct reply as [response|]; [|by left].
    right. exists response. split; [done|].
    destruct (geminiService.text response) as [t|]; simpl; [|by left].
    destruct (truthy_string t); [|by left].
    right. exists t. split; [done|]. by destruct (JSON.read t).
  - intros [->|(response & -> & [Hno|(t & Ht & Hread)])]; [by eexists|..].
    + destruct (geminiService.text response) as [t|]; simpl in *; [|by eexists].
      rewrite Hno. by eexists.
    + rewrite Ht, Hread. destruct (truthy_string t); by eexists.
Qed.



(** C6: a search whose Explain step fails (the request is rejected, the
    response has no text, or its text does not parse) calls [explainTerm]
    and nothing else of the gateway, shows the generic alert, leaves no
    result and the notebook as it was, and ends in [Failed]. *)
Theorem explain_failure_ends_in_Failed env st :
  truthy_string (trim (App.searchTerm st)) = true ->
  explain_fails (App.explain_reply env) ->
  exists st' tr,
    App.handleSearch env st = App.Finished st' tr
    /\ tr = [explainTerm_called (App.searchTerm st) (App.context st);
             alert App.generic_alert; console_error]
    /\ (forall prompt, generateConceptImage_called prompt ∉ tr)
    /\ App.currentResult st' = None
    /\ App.notebook st' = App.notebook st
    /\ App.isSearching st' = false
    /\ flow st' tr = [Idle; Explaining; Failed].
Proof.
  intros Hterm [e He]%explainTerm_Throw_iff.
  unfold App.handleSearch. rewrite Hterm, He. simpl.
  eexists _, _. split; [reflexivity|]. repeat split.
  intros prompt Hin. repeat (apply elem_of_cons in Hin as [[=]|Hin]).
  by apply elem_of_nil in Hin.
Qed.

Lemma explain_failure_ends_in_Failed_witness :
  exists st' tr,
    App.handleSearch samples.env_unparsable (samples.typed "toque")
      = App.Finished st' tr
    /\ tr = [explainTerm_called (App.searchTerm (samples.typed "toque"))
                                (App.context (samples.typed "toque"));
             alert App.generic_alert; console_error]
    /\ (forall prompt, generateConceptImage_called prompt ∉ tr)
    /\ App.currentResult st' = None
    /\ App.notebook st' = App.notebook (samples.typed "toque")
    /\ App.isSearching st' = false
    /\ flow st' tr = [Idle; Explaining; Failed].
Proof.
  apply (explain_failure_ends_in_Failed samples.env_unparsable (samples.typed "toque")).
  - reflexivity.
  - right. eexists. split; [reflexivity|]. right. eexists. split; reflexivity.
Defined.




End SearchFlow.

(** ** Audio decoding *)

Section Audio.

Import geminiService.

Implicit Types (bytes : list Byte.byte) (lo hi : Byte.byte).

Lemma int16_range lo hi : (-32768 <= int16 lo hi <= 32767)%Z.
Proof.
  unfold int16.
  pose proof (Byte.to_N_bounded lo). pose proof (Byte.to_N_bounded hi).
  destruct (Z.ltb_spec (Z.of_N (Byte.to_N lo) + 256 * Z.of_N (Byte.to_N hi)) 32768); lia.
Qed.

(** Induction over a list of bytes two at a time, as [Int16Array] reads it. *)
Lemma byte_pairs_ind (P : list Byte.byte -> Prop) :
  P [] ->
  (forall b, P [b]) ->
  (forall lo hi rest, P rest -> P (lo :: hi :: rest)) ->
  forall bytes, P bytes.
Proof.
  intros Hnil Hone Hpair.
  assert (forall bytes, P bytes /\ forall b, P (b :: bytes)) as Hboth.
  { induction bytes as [|a bytes [IH1 IH2]]; split; auto. }
  intros bytes. apply Hboth.
Qed.

Lemma Int16Array_range bytes s : s ∈ Int16Array bytes -> (-32768 <= s <= 32767)%Z.
Proof.
  induction bytes as [|b|lo hi rest IH] using byte_pairs_ind; simpl.
  - by intros ?%elem_of_nil.
  - by intros ?%elem_of_nil.
  - intros [->|Hin]%elem_of_cons; [apply int16_range | by apply IH].
Qed.

Lemma Int16Array_length bytes :
  List.length (Int16Array bytes) = (List.length bytes / 2)%nat.
Proof.
  induction bytes as [|b|lo hi rest IH] using byte_pairs_ind; [done..|].
  simpl Int16Array. simpl List.length. rewrite IH.
  change (S (S (List.length rest))) with (1 * 2 + List.length rest)%nat.
  rewrite Nat.add_comm, Nat.div_add by done. lia.
Qed.

Lemma Int16Array_lookup bytes (i : nat) lo hi :
  bytes !! (2 * i)%nat = Some lo ->
  bytes !! (2 * i + 1)%nat = Some hi ->
  Int16Array bytes !! i = Some (int16 lo hi).
Proof.
  revert bytes. induction i as [|i IH]; intros [|b0 [|b1 bytes]]; try done.
  - simpl. by intros [= ->] [= ->].
  - replace (2 * S i)%nat with (S (S (2 * i))) by lia.
    replace (S (S (2 * i)) + 1)%nat with (S (S (2 * i + 1))) by lia.
    simpl. apply IH.
Qed.

Lemma sample_range (s : Z) :
  (-32768 <= s <= 32767)%Z -> (-1 <= s # 32768)%Q /\ (s # 32768 <= 1)%Q.
Proof. intros Hs. unfold Qle. simpl. lia. Qed.

Lemma sample_is_binary32 (s : Z) :
  (-32768 <= s <= 32767)%Z -> spec.binary32_exact (s # 32768).
Proof.
  intros Hs. exists s, (-15)%Z. split; [lia|]. split; [lia|].
  change (2 ^ (-15))%Q with (1 # 32768)%Q.
  unfold Qeq, Qmult, inject_Z. simpl. lia.
Qed.

Lemma fill_length pcm16 (i : nat) (channelData : list Q) :
  List.length (fill pcm16 i channelData) = List.length channelData.
Proof.
  revert i channelData. induction pcm16 as [|s pcm16 IH]; intros i cd; simpl; [done|].
  by rewrite IH, length_insert.
Qed.

Lemma fill_lookup pcm16 (i j : nat) (channelData : list Q) :
  (i + List.length pcm16 <= List.length channelData)%nat ->
  fill pcm16 i channelData !! j
  = if decide (i <= j < i + List.length pcm16)%nat
    then (fun s => (s # 32768)%Q) <$> pcm16 !! (j - i)%nat
    else channelData !! j.
Proof.
  revert i channelData. induction pcm16 as [|s pcm16 IH]; intros i cd Hlen; simpl in *.
  - case_decide; [lia | done].
  - rewrite IH by (rewrite length_insert; lia).
    destruct (decide (i = j)) as [->|Hne].
    + rewrite decide_False by lia. rewrite decide_True by lia.
      rewrite Nat.sub_diag. simpl. apply list_lookup_insert_eq. lia.
    + rewrite list_lookup_insert_ne by done.
      destruct (decide (S i <= j < S i + List.length pcm16)%nat).
      * rewrite decide_True by lia.
        by replace (j - i)%nat with (S (j - S i)) by lia.
      * by rewrite decide_False by lia.
Qed.

(** On a channel of silence of the length of [pcm16], the loop leaves the
    samples of [pcm16], each over 32768. *)
Lemma fill_silence pcm16 :
  fill pcm16 0 (replicate (List.length pcm16) 0%Q)
  = (fun s => (s # 32768)%Q) <$> pcm16.
Proof.
  apply list_eq. intros j.
  rewrite fill_lookup by (rewrite length_replicate; lia).
  case_decide as Hj; [by rewrite Nat.sub_0_r, list_lookup_fmap|].
  rewrite (proj1 (lookup_replicate_None _ _ _)) by lia.
  symmetry. apply lookup_ge_None_2. rewrite length_fmap. lia.
Qed.

Lemma createBuffer_mono (frames : nat) (rate : Z) :
  (0 < frames)%nat ->
  createBuffer 1 frames rate
  = Return {| numberOfChannels := 1; length := Z.of_nat frames;
              sampleRate := rate; getChannelData := [replicate frames 0%Q] |}.
Proof. intros Hpos. unfold createBuffer. by destruct frames; [lia|]. Qed.

Lemma pcmToAudioBuffer_Return bytes rate :
  (2 <= List.length bytes)%nat ->
  pcmToAudioBuffer bytes rate
  = Return {| numberOfChannels := 1;
              length := Z.of_nat (List.length bytes / 2);
              sampleRate := default 24000%Z rate;
              getChannelData := [(fun s => (s # 32768)%Q) <$> Int16Array bytes] |}.
Proof.
  intros Hlen. unfold pcmToAudioBuffer.
  assert (1 <= List.length bytes / 2)%nat as Hpos.
  { apply Nat.div_le_lower_bound; lia. }
  rewrite createBuffer_mono by (rewrite Int16Array_length; lia).
  simpl. by rewrite fill_silence, Int16Array_length.
Qed.

(** A stream that holds no sample gives no buffer: [createBuffer] refuses
    one of no frame, and [playTTS] logs the exception. *)
Lemma pcmToAudioBuffer_Throw bytes rate :
  (List.length bytes < 2)%nat ->
  pcmToAudioBuffer bytes rate = Throw NotSupportedError.
Proof. by destruct bytes as [|b0 [|b1 bytes]]; [..|simpl; lia]. Qed.

(** C8: of a stream that holds at least one sample the decoder makes one
    channel at 24000 Hz with one sample per pair of bytes; the i-th sample
    is the signed 16-bit integer of the i-th pair divided by 32768, a
    value a 32-bit float holds exactly, and it lies between -1 and 1. *)
Theorem pcm_samples_are_normalized bytes :
  (2 <= List.length bytes)%nat ->
  pcmToAudioBuffer bytes None = decoded_speech bytes
  /\ exists buffer channel,
      decoded_speech bytes = Return buffer
      /\ numberOfChannels buffer = 1%Z
      /\ sampleRate buffer = 24000%Z
      /\ length buffer = Z.of_nat (List.length bytes / 2)
      /\ getChannelData buffer = [channel]
      /\ List.length channel = (List.length bytes / 2)%nat
      /\ (forall (i : nat) lo hi,
            bytes !! (2 * i)%nat = Some lo ->
            bytes !! (2 * i + 1)%nat = Some hi ->
            channel !! i = Some (int16 lo hi # 32768)%Q)
      /\ (forall (i : nat) x,
            channel !! i = Some x ->
            (-1 <= x)%Q /\ (x <= 1)%Q /\ spec.binary32_exact x).
Proof.
  intros Hlen. split; [done|].
  unfold decoded_speech. rewrite pcmToAudioBuffer_Return by done.
  eexists _, _. split; [reflexivity|]. simpl.
  do 4 (split; [reflexivity|]). split; [|split].
  - by rewrite length_fmap, Int16Array_length.
  - intros i lo hi Hlo Hhi.
    by rewrite list_lookup_fmap, (Int16Array_lookup bytes i lo hi).
  - intros i x. rewrite list_lookup_fmap.
    destruct (Int16Array bytes !! i) as [s|] eqn:Hs; [|done].
    intros [= <-].
    assert (-32768 <= s <= 32767)%Z as Hrange.
    { eapply Int16Array_range, list_elem_of_lookup_2, Hs. }
    split; [apply sample_range, Hrange|].
    split; [apply sample_range, Hrange | apply sample_is_binary32, Hrange].
Qed.

Lemma pcm_samples_are_normalized_witness :
  pcmToAudioBuffer samples.pcm None = decoded_speech samples.pcm
  /\ exists buffer channel,
      decoded_speech samples.pcm = Return buffer
      /\ numberOfChannels buffer = 1%Z
      /\ sampleRate buffer = 24000%Z
      /\ length buffer = Z.of_nat (List.length samples.pcm / 2)
      /\ getChannelData buffer = [channel]
      /\ List.length channel = (List.length samples.pcm / 2)%nat
      /\ (forall (i : nat) lo hi,
            samples.pcm !! (2 * i)%nat = Some lo ->
            samples.pcm !! (2 * i + 1)%nat = Some hi ->
            channel !! i = Some (int16 lo hi # 32768)%Q)
      /\ (forall (i : nat) x,
            channel !! i = Some x ->
            (-1 <= x)%Q /\ (x <= 1)%Q /\ spec.binary32_exact x).
Proof. apply (pcm_samples_are_normalized samples.pcm). simpl. lia. Defined.

(** A stream of a single byte, which is what [playTTS] receives when the
    audio data is the base64 text [AA==], holds no sample: the decoder
    throws, and there is no waveform; the same goes for the stream of no
    byte. *)
Lemma pcm_of_one_byte_is_refused :
  tts.decodeBase64 (js "AA==") = Some [Byte.x00]
  /\ decoded_speech [Byte.x00] = Throw NotSupportedError
  /\ decoded_speech [] = Throw NotSupportedError
  /\ ~ (exists buffer, decoded_speech [Byte.x00] = Return buffer).
Proof.
  split; [vm_compute; reflexivity|].
  split; [reflexivity|]. split; [reflexivity|].
  by intros [buffer Hbuffer].
Qed.

Example decoded_speech_extremes :
  decoded_speech samples.pcm
  = Return {| numberOfChannels := 1; length := 2; sampleRate := 24000;
              getChannelData := [[(-32768 # 32768)%Q; (32767 # 32768)%Q]] |}.
Proof. reflexivity. Qed.

End Audio.

(** ** Flashcards *)

Section Flashcards.

Import spec.

Implicit Types (st : App.state) (nb : list DictionaryEntry) (tr : list effect).

(** C9: the card of an entry renders exactly when the entry has a first
    example, whose English sentence the back face then shows; on an entry
    without examples the rendering throws a [TypeError].  Such entries
    exist: the payload the response schema allows with an empty list of
    examples parses to one, and after saving the result of that search the
    study view throws. *)
Theorem flashcard_needs_a_first_example :
  (forall props e,
      Flashcard.entry props = Some e ->
      (Flashcard.render props = Throw TypeError <-> examples e = []))
  /\ (forall props e ex rest,
      Flashcard.entry props = Some e ->
      examples e = ex :: rest ->
      exists c, Flashcard.render props = Return c
                /\ Flashcard.back_example c = english ex)
  /\ (exists v x,
      JSON.read samples.payload_without_examples = Some v
      /\ geminiService.explanation_of_json v = Some x
      /\ geminiService.x_examples x = [])
  /\ (exists st tr e,
      App.run [App.TypeSearchTerm (js "toque");
               App.ClickExplain (samples.env_no_image samples.payload_without_examples);
               App.ClickSave;
               App.Navigate FLASHCARDS] (App.init []) = App.Finished st tr
      /\ App.at_index (App.notebook st) (App.flashcardIndex st) = Some e
      /\ examples e = []
      /\ App.renderFlashcards st = Throw TypeError).
Proof.
  split; [|split; [|split]].
  - intros props e He. unfold Flashcard.render. rewrite He.
    by destruct (examples e).
  - intros props e ex rest He Hex. unfold Flashcard.render.
    rewrite He, Hex. simpl. by eexists.
  - eexists _, _. split; [vm_compute; reflexivity|].
    split; [vm_compute; reflexivity | reflexivity].
  - eexists _, _, _. split; [vm_compute; reflexivity|].
    split; [vm_compute; reflexivity|]. split; reflexivity.
Qed.

Lemma rem_range (x n : Z) : (0 <= x)%Z -> (0 < n)%Z -> (0 <= Z.rem x n < n)%Z.
Proof. intros Hx Hn. rewrite Z.rem_mod_nonneg by lia. by apply Z.mod_pos_bound. Qed.

Lemma onNext_in_range nb (i : Z) :
  nb ≠ [] -> (0 <= i)%Z ->
  (0 <= App.onNext nb i < Z.of_nat (length nb))%Z.
Proof.
  intros Hnb Hi. unfold App.onNext. apply rem_range; [lia|].
  destruct nb; [done | simpl; lia].
Qed.

Lemma onPrev_in_range nb (i : Z) :
  nb ≠ [] -> (0 <= i)%Z ->
  (0 <= App.onPrev nb i < Z.of_nat (length nb))%Z.
Proof.
  intros Hnb Hi. unfold App.onPrev.
  assert (0 < Z.of_nat (length nb))%Z by (destruct nb; [done | simpl; lia]).
  apply rem_range; lia.
Qed.

Lemma step_cursor a st st' tr :
  App.step a st = App.Finished st' tr ->
  App.flashcardIndex st' = App.flashcardIndex st
  \/ (a = App.ClickNext /\ App.flashcardIndex st' = App.onNext (App.notebook st) (App.flashcardIndex st))
  \/ (a = App.ClickPrev /\ App.flashcardIndex st' = App.onPrev (App.notebook st) (App.flashcardIndex st)).
Proof.
  unfold App.step.
  destruct (App.crashed st); [intros [= <- _]; by left|].
  destruct a as [s|s|env| |row|reply|v| |], (App.view st);
    try (intros [= <- _]; by left).
  - destruct (_ || _); [intros [= <- _]; by left|].
    intros ?%handleSearch_cursor. by left.
  - destruct (App.currentResult st); intros [= <- _]; by left.
  - destruct (App.notebook st !! row); intros [= <- _]; by left.
  - destruct (App.story_disabled st); [intros [= <- _]; by left|].
    unfold App.handleGenerateStory.
    destruct (_ =? _)%nat; [intros [= <- _]; by left|].
    destruct (geminiService.generateStoryFromList reply); intros [= <- _]; by left.
  - destruct v; intros [= <- _]; by left.
  - destruct v; intros [= <- _]; by left.
  - destruct v; intros [= <- _]; by left.
  - destruct v; intros [= <- _]; by left.
  - destruct (App.renderFlashcards st) as [[c|]|]; intros [= <- _];
      [right; left; done | by left | by left].
  - destruct (App.renderFlashcards st) as [[c|]|]; intros [= <- _];
      [right; right; done | by left | by left].
Qed.

(** C10: on a notebook that is not empty, next and previous put the cursor
    within the notebook; no other action moves the cursor, a toggle least
    of all; so an in-range cursor is lost when a toggle shortens the
    notebook below it, and the study view then reads a position the
    notebook does not have: from the initial state, saving two terms,
    moving to the second card and removing the first entry leaves the
    cursor at 1 on a notebook of one entry, where [notebook[1]] is
    undefined and the rendering throws. *)
Theorem flashcard_cursor_is_not_clamped :
  (forall nb (i : Z),
      nb ≠ [] -> (0 <= i)%Z ->
      (0 <= App.onNext nb i < Z.of_nat (length nb))%Z
      /\ (0 <= App.onPrev nb i < Z.of_nat (length nb))%Z)
  /\ (forall a st st' tr,
      App.step a st = App.Finished st' tr ->
      App.flashcardIndex st' ≠ App.flashcardIndex st ->
      a = App.ClickNext \/ a = App.ClickPrev)
  /\ (exists st st' tr,
      cursor_in_range st
      /\ App.step (App.ClickRemove 0) st = App.Finished st' tr
      /\ App.notebook st' = [samples.double_double]
      /\ App.flashcardIndex st' = 1%Z
      /\ ~ cursor_in_range st')
  /\ (exists st tr,
      App.run [App.TypeSearchTerm (js "toque");
               App.ClickExplain (samples.env_no_image samples.payload);
               App.ClickSave;
               App.TypeSearchTerm (js "double-double");
               App.ClickExplain (samples.env_no_image samples.payload);
               App.ClickSave;
               App.Navigate FLASHCARDS;
               App.ClickNext;
               App.Navigate NOTEBOOK;
               App.ClickRemove 0;
               App.Navigate FLASHCARDS] (App.init []) = App.Finished st tr
      /\ App.view st = FLASHCARDS
      /\ length (App.notebook st) = 1%nat
      /\ App.flashcardIndex st = 1%Z
      /\ App.at_index (App.notebook st) (App.flashcardIndex st) = None
      /\ App.renderFlashcards st = Throw TypeError).
Proof.
  split; [|split; [|split]].
  - intros nb i Hnb Hi. split; [by apply onNext_in_range | by apply onPrev_in_range].
  - intros a st st' tr Hstep Hmoved.
    destruct (step_cursor a st st' tr Hstep) as [Hsame|[[-> _]|[-> _]]];
      [done | by left | by right].
  - exists (App.setFlashcardIndex (fun _ => 1%Z)
              (App.setView NOTEBOOK (App.init [samples.toque; samples.double_double]))).
    eexists _, _. split; [right; simpl; lia|].
    split; [vm_compute; reflexivity|]. split; [reflexivity|]. split; [reflexivity|].
    intros [Hnil|Hrange]; [discriminate Hnil | simpl in Hrange; lia].
  - eexists _, _. split; [vm_compute; reflexivity|].
    repeat split.
Qed.

End Flashcards.

(** * Further properties of the code *)

(** ** The notebook under the actions of the screens *)

Section NotebookActions.

Implicit Types (nb : list DictionaryEntry) (e entry : DictionaryEntry).
Implicit Types (st : App.state) (a : App.action) (tr : list effect).

Lemma isSaved_true nb e : views.isSaved nb e = true <-> term e ∈ term <$> nb.
Proof.
  unfold views.isSaved. split.
  - destruct (List.find _ nb) eqn:Hfind; [|done]. intros _.
    destruct (decide (term e ∈ term <$> nb)) as [|Hnot]; [done|].
    apply find_term_None in Hnot. congruence.
  - intros [n ->]%find_term_Some. done.
Qed.

Lemma toggle_NoDup nb e :
  NoDup (term <$> nb) -> NoDup (term <$> App.toggle nb e).
Proof.
  intros Hnd. destruct (decide (term e ∈ term <$> nb)) as [Hin|Hnot].
  - rewrite toggle_present by done. by apply filter_term_NoDup.
  - rewrite toggle_absent, fmap_app by done.
    apply NoDup_app. split; [done|]. split; [|apply NoDup_singleton].
    intros t Ht ->%list_elem_of_singleton. done.
Qed.

(** What an action does to the notebook: nothing, or a toggle of it. *)
Lemma step_notebook a st st' tr :
  App.step a st = App.Finished st' tr ->
  App.notebook st' = App.notebook st
  \/ exists entry, App.notebook st' = App.toggle (App.notebook st) entry.
Proof.
  unfold App.step.
  destruct (App.crashed st); [intros [= <- _]; by left|].
  destruct a as [s|s|env| |row|reply|v| |], (App.view st);
    try (intros [= <- _]; by left).
  - destruct (_ || _); [intros [= <- _]; by left|].
    intros H. left. by eapply handleSearch_notebook.
  - destruct (App.currentResult st) as [data|]; [|intros [= <- _]; by left].
    intros [= <- _]. right. by exists data.
  - destruct (App.notebook st !! row) as [item|]; [|intros [= <- _]; by left].
    intros [= <- _]. right. by exists item.
  - destruct (App.story_disabled st); [intros [= <- _]; by left|].
    pose proof (handleGenerateStory_notebook reply st) as Hnb.
    destruct (App.handleGenerateStory reply st) as [st1 tr1].
    intros [= <- _]. by left.
  - destruct v; intros [= <- _]; by left.
  - destruct v; intros [= <- _]; by left.
  - destruct v; intros [= <- _]; by left.
  - destruct v; intros [= <- _]; by left.
  - destruct (App.renderFlashcards st) as [[c|]|]; intros [= <- _]; by left.
  - destruct (App.renderFlashcards st) as [[c|]|]; intros [= <- _]; by left.
Qed.

(** A property of states that every action keeps holds after every run. *)
Lemma run_invariant (P : App.state -> Prop) :
  (forall a st st' tr, P st -> App.step a st = App.Finished st' tr -> P st') ->
  forall actions st st' tr,
    P st -> App.run actions st = App.Finished st' tr -> P st'.
Proof.
  intros Hstep actions. induction actions as [|a actions IH]; simpl.
  - by intros st st' tr HP [= <- _].
  - intros st st' tr HP.
    destruct (App.step a st) as [st1 tr1|] eqn:Ha; [|done].
    destruct (App.run actions st1) as [st2 tr2|] eqn:Hrun; [|done].
    intros [= <- _]. eapply IH; [|done]. by eapply Hstep.
Qed.

(** X1: the bookmark follows the toggle: after a toggle with an entry, the
    result card of any entry of that term shows the opposite of what it
    showed before. *)
Theorem bookmark_flips_on_toggle nb e e' :
  term e' = term e ->
  views.isSaved (App.toggle nb e) e' = negb (views.isSaved nb e').
Proof.
  intros Hsame.
  destruct (views.isSaved nb e') eqn:Hsaved; simpl.
  - apply isSaved_true in Hsaved. rewrite Hsame in Hsaved.
    apply not_true_is_false. rewrite isSaved_true, Hsame.
    rewrite toggle_present by done. apply filter_term_removes.
  - apply not_true_iff_false in Hsaved. rewrite isSaved_true, Hsame in Hsaved.
    apply isSaved_true. rewrite Hsame, toggle_absent, fmap_app by done.
    apply elem_of_app. right. apply list_elem_of_here.
Qed.

Lemma bookmark_flips_on_toggle_witness :
  views.isSaved (App.toggle [samples.toque; samples.double_double] samples.toque)
                samples.toque_again
  = negb (views.isSaved [samples.toque; samples.double_double] samples.toque_again).
Proof.
  apply (bookmark_flips_on_toggle [samples.toque; samples.double_double]
           samples.toque samples.toque_again).
  reflexivity.
Defined.

(** X2: a toggle touches the entries of one term only: the entries of the
    other terms are the same before and after, in the same order. *)
Theorem toggle_leaves_other_terms nb e :
  filter (fun n => term n ≠ term e) (App.toggle nb e)
  = filter (fun n => term n ≠ term e) nb.
Proof.
  destruct (decide (term e ∈ term <$> nb)) as [Hin|Hnot].
  - rewrite toggle_present by done.
    apply filter_term_absent, filter_term_removes.
  - rewrite toggle_absent, filter_app by done.
    rewrite filter_cons_False by (intros Hne; by apply Hne).
    by rewrite filter_nil, app_nil_r.
Qed.

Lemma filter_term_delete nb (row : nat) item :
  NoDup (term <$> nb) ->
  nb !! row = Some item ->
  filter (fun n => term n ≠ term item) nb = delete row nb.
Proof.
  revert row. induction nb as [|n nb IH]; intros row; [done|].
  rewrite fmap_cons, NoDup_cons. intros [Hnot Hnd].
  destruct row as [|row]; simpl.
  - intros [= ->]. rewrite filter_cons_False by (intros Hne; by apply Hne).
    by apply filter_term_absent.
  - intros Hrow. rewrite filter_cons_True, (IH row) by
      (try done; intros Heq; apply Hnot; rewrite Heq;
       by eapply list_elem_of_fmap_2, list_elem_of_lookup_2).
    done.
Qed.

(** X3: the cross of a notebook row always removes, never adds: the
    notebook it leaves is the old one without the entries of the term of
    that row, it is shorter, and nothing else of the state changes; when
    the terms of the notebook are pairwise distinct, exactly that row is
    gone. *)
Theorem remove_row_removes st (row : nat) item :
  App.view st = NOTEBOOK ->
  App.notebook st !! row = Some item ->
  App.step (App.ClickRemove row) st
  = App.Finished
      (App.setNotebook (fun prev => filter (fun n => term n ≠ term item) prev) st) []
  /\ (term item ∉ term <$> filter (fun n => term n ≠ term item) (App.notebook st))
  /\ (length (filter (fun n => term n ≠ term item) (App.notebook st))
      < length (App.notebook st))
  /\ (NoDup (term <$> App.notebook st) ->
      filter (fun n => term n ≠ term item) (App.notebook st)
      = delete row (App.notebook st)).
Proof.
  intros Hview Hrow.
  assert (term item ∈ term <$> App.notebook st) as Hin.
  { by eapply list_elem_of_fmap_2, list_elem_of_lookup_2. }
  split; [|split; [apply filter_term_removes|split]].
  - unfold App.step, App.crashed. rewrite Hview, Hrow.
    unfold App.toggleSave.
    destruct (find_term_Some _ _ Hin) as [n ->]. done.
  - apply (length_filter_lt _ _ item).
    + by eapply list_elem_of_lookup_2.
    + intros Hne. by apply Hne.
  - intros Hnd. by apply filter_term_delete.
Qed.

Lemma remove_row_removes_witness :
  App.step (App.ClickRemove 0)
    (App.setView NOTEBOOK (App.init [samples.toque; samples.double_double]))
  = App.Finished
      (App.setNotebook (fun prev => filter (fun n => term n ≠ term samples.toque) prev)
         (App.setView NOTEBOOK (App.init [samples.toque; samples.double_double]))) []
  /\ (term samples.toque
      ∉ term <$> filter (fun n => term n ≠ term samples.toque)
                   (App.notebook
                      (App.setView NOTEBOOK (App.init [samples.toque; samples.double_double]))))
  /\ (length (filter (fun n => term n ≠ term samples.toque)
               (App.notebook
                  (App.setView NOTEBOOK (App.init [samples.toque; samples.double_double]))))
      < length (App.notebook
                  (App.setView NOTEBOOK (App.init [samples.toque; samples.double_double]))))
  /\ (NoDup (term <$> App.notebook
               (App.setView NOTEBOOK (App.init [samples.toque; samples.double_double]))) ->
      filter (fun n => term n ≠ term samples.toque)
        (App.notebook
           (App.setView NOTEBOOK (App.init [samples.toque; samples.double_double])))
      = delete 0%nat
          (App.notebook
             (App.setView NOTEBOOK (App.init [samples.toque; samples.double_double])))).
Proof.
  apply (remove_row_removes
           (App.setView NOTEBOOK (App.init [samples.toque; samples.double_double]))
           0 samples.toque); reflexivity.
Defined.

(** X4: whatever the user does, the terms of the notebook stay pairwise
    distinct once they are: from a notebook without two entries of one
    term, every run of actions ends in such a notebook. *)
Theorem reachable_terms_unique nb actions st tr :
  NoDup (term <$> nb) ->
  App.run actions (App.init nb) = App.Finished st tr ->
  NoDup (term <$> App.notebook st).
Proof.
  intros Hnd Hrun.
  apply (run_invariant (fun st => NoDup (term <$> App.notebook st)))
    with (actions := actions) (st := App.init nb) (tr := tr); [|done..].
  intros a st0 st1 tr1 Hst0 [->|[entry ->]]%step_notebook; [done|].
  by apply toggle_NoDup.
Qed.

Lemma reachable_terms_unique_witness :
  exists st tr,
    App.run scenarios.session (App.init []) = App.Finished st tr
    /\ NoDup (term <$> App.notebook st).
Proof.
  eexists _, _. split; [vm_compute; reflexivity|].
  eapply (reachable_terms_unique [] scenarios.session).
  - apply NoDup_nil_2.
  - vm_compute. reflexivity.
Defined.

End NotebookActions.

(** ** The study view as a cyclic walk *)

Section StudyWalk.

Implicit Types (nb : list DictionaryEntry) (st : App.state) (i : Z).

Lemma onNext_mod nb i :
  nb ≠ [] -> (0 <= i)%Z ->
  App.onNext nb i = ((i + 1) mod Z.of_nat (length nb))%Z.
Proof.
  intros Hnb Hi. unfold App.onNext. apply Z.rem_mod_nonneg; [lia|].
  destruct nb; [done | simpl; lia].
Qed.

Lemma onPrev_mod nb i :
  nb ≠ [] -> (0 <= i)%Z ->
  App.onPrev nb i = ((i - 1 + Z.of_nat (length nb)) mod Z.of_nat (length nb))%Z.
Proof.
  intros Hnb Hi. unfold App.onPrev.
  assert (0 < Z.of_nat (length nb))%Z by (destruct nb; [done | simpl; lia]).
  apply Z.rem_mod_nonneg; lia.
Qed.

(** X5: on a cursor within the notebook, next and previous undo each
    other; next wraps from the last card to the first and previous from
    the first to the last. *)
Theorem next_and_previous_are_inverse nb i :
  (0 <= i < Z.of_nat (length nb))%Z ->
  App.onPrev nb (App.onNext nb i) = i
  /\ App.onNext nb (App.onPrev nb i) = i
  /\ App.onNext nb (Z.of_nat (length nb) - 1) = 0%Z
  /\ App.onPrev nb 0 = (Z.of_nat (length nb) - 1)%Z.
Proof.
  intros Hi.
  assert (nb ≠ []) as Hnb by (intros ->; simpl in Hi; lia).
  set (N := Z.of_nat (length nb)) in *.
  assert (forall j, (0 <= j)%Z -> App.onNext nb j = ((j + 1) mod N)%Z) as Hnext.
  { intros j Hj. by apply onNext_mod. }
  assert (forall j, (0 <= j)%Z -> App.onPrev nb j = ((j - 1 + N) mod N)%Z) as Hprev.
  { intros j Hj. by apply onPrev_mod. }
  assert (Hwrap : ((N - 1 + 1) mod N = 0)%Z).
  { replace (N - 1 + 1)%Z with (1 * N)%Z by lia. apply Z.mod_mul. lia. }
  assert (Hlast : ((0 - 1 + N) mod N = N - 1)%Z).
  { replace (0 - 1 + N)%Z with (N - 1)%Z by lia. apply Z.mod_small. lia. }
  repeat split.
  - rewrite Hnext by lia.
    destruct (decide (i + 1 = N)%Z) as [Heq|Hne].
    + replace (i + 1)%Z with (N - 1 + 1)%Z by lia. rewrite Hwrap.
      rewrite Hprev by lia. rewrite Hlast. lia.
    + rewrite (Z.mod_small (i + 1)) by lia. rewrite Hprev by lia.
      replace (i + 1 - 1 + N)%Z with (i + 1 * N)%Z by lia.
      rewrite Z.mod_add by lia. apply Z.mod_small. lia.
  - rewrite Hprev by lia.
    destruct (decide (i = 0)%Z) as [->|Hne].
    + rewrite Hlast. rewrite Hnext by lia. exact Hwrap.
    + replace (i - 1 + N)%Z with (i - 1 + 1 * N)%Z by lia.
      rewrite Z.mod_add by lia. rewrite (Z.mod_small (i - 1)) by lia.
      rewrite Hnext by lia. replace (i - 1 + 1)%Z with i by lia.
      apply Z.mod_small. lia.
  - rewrite Hnext by lia. exact Hwrap.
  - rewrite Hprev by lia. exact Hlast.
Qed.

Lemma next_and_previous_are_inverse_witness :
  App.onPrev [samples.toque; samples.double_double]
    (App.onNext [samples.toque; samples.double_double] 1) = 1%Z
  /\ App.onNext [samples.toque; samples.double_double]
       (App.onPrev [samples.toque; samples.double_double] 1) = 1%Z
  /\ App.onNext [samples.toque; samples.double_double]
       (Z.of_nat (length [samples.toque; samples.double_double]) - 1) = 0%Z
  /\ App.onPrev [samples.toque; samples.double_double] 0
     = (Z.of_nat (length [samples.toque; samples.double_double]) - 1)%Z.
Proof.
  apply (next_and_previous_are_inverse [samples.toque; samples.double_double] 1).
  simpl. lia.
Defined.

(** The card under a cursor within a notebook whose entries all have an
    example. *)
Lemma renderFlashcards_Return st :
  (0 <= App.flashcardIndex st < Z.of_nat (length (App.notebook st)))%Z ->
  Forall (fun e => examples e ≠ []) (App.notebook st) ->
  exists e ex c,
    App.notebook st !! Z.to_nat (App.flashcardIndex st) = Some e
    /\ examples e !! 0%nat = Some ex
    /\ App.renderFlashcards st = Return (Some c)
    /\ Flashcard.front_term c = term e
    /\ Flashcard.back_example c = english ex
    /\ Flashcard.counter c
       = (App.flashcardIndex st + 1, Z.of_nat (length (App.notebook st)))%Z.
Proof.
  intros Hi Hex. unfold App.renderFlashcards, App.at_index, Flashcard.render.
  destruct (App.notebook st) as [|n nb] eqn:Hnb; [simpl in Hi; lia|].
  rewrite <- Hnb in *. replace (length (App.notebook st) =? 0)%nat with false
    by (rewrite Hnb; done).
  replace (App.flashcardIndex st <? 0)%Z with false by lia.
  destruct (App.notebook st !! Z.to_nat (App.flashcardIndex st)) as [e|] eqn:He.
  2: { apply lookup_ge_None in He. lia. }
  assert (examples e ≠ []) as Hne.
  { eapply (proj1 (Forall_forall _ _) Hex), list_elem_of_lookup_2, He. }
  destruct (examples e) as [|ex rest] eqn:Hexs; [done|].
  eexists e, ex, _. rewrite Hexs. simpl. rewrite Hexs. done.
Qed.

(** X6: the study view of a notebook whose entries all have an example
    shows, for a cursor within the notebook, the entry under the cursor,
    numbered from 1 up to the size of the notebook, and does not crash;
    on an empty notebook it shows the placeholder, wherever the cursor
    is. *)
Theorem study_view_shows_the_entry_under_the_cursor st :
  Forall (fun e => examples e ≠ []) (App.notebook st) ->
  (App.notebook st = [] -> App.renderFlashcards st = Return None)
  /\ ((0 <= App.flashcardIndex st < Z.of_nat (length (App.notebook st)))%Z ->
      App.crashed st = false
      /\ exists e c,
          App.notebook st !! Z.to_nat (App.flashcardIndex st) = Some e
          /\ App.renderFlashcards st = Return (Some c)
          /\ Flashcard.front_term c = term e
          /\ Flashcard.back_definition c = definitionEnglish e
          /\ Flashcard.counter c
             = (App.flashcardIndex st + 1, Z.of_nat (length (App.notebook st)))%Z
          /\ (1 <= (Flashcard.counter c).1 <= (Flashcard.counter c).2)%Z).
Proof.
  intros Hex. split.
  - intros Hnb. unfold App.renderFlashcards. by rewrite Hnb.
  - intros Hi.
    destruct (renderFlashcards_Return st Hi Hex)
      as (e & ex & c & He & Hex0 & Hrender & Hterm & _ & Hcounter).
    split; [unfold App.crashed; rewrite Hrender; by destruct (App.view st)|].
    exists e, c. repeat split; try done.
    + revert Hrender. unfold App.renderFlashcards, App.at_index, Flashcard.render.
      destruct (length (App.notebook st) =? 0)%nat; [done|].
      replace (App.flashcardIndex st <? 0)%Z with false by lia.
      simpl. rewrite He, Hex0. by intros [= <-].
    + rewrite Hcounter. simpl. lia.
    + rewrite Hcounter. simpl. lia.
Qed.

Lemma study_view_shows_the_entry_under_the_cursor_witness :
  (App.notebook scenarios.studying = [] ->
   App.renderFlashcards scenarios.studying = Return None)
  /\ ((0 <= App.flashcardIndex scenarios.studying
          < Z.of_nat (length (App.notebook scenarios.studying)))%Z ->
      App.crashed scenarios.studying = false
      /\ exists e c,
          App.notebook scenarios.studying
            !! Z.to_nat (App.flashcardIndex scenarios.studying) = Some e
          /\ App.renderFlashcards scenarios.studying = Return (Some c)
          /\ Flashcard.front_term c = term e
          /\ Flashcard.back_definition c = definitionEnglish e
          /\ Flashcard.counter c
             = (App.flashcardIndex scenarios.studying + 1,
                Z.of_nat (length (App.notebook scenarios.studying)))%Z
          /\ (1 <= (Flashcard.counter c).1 <= (Flashcard.counter c).2)%Z).
Proof.
  apply (study_view_shows_the_entry_under_the_cursor scenarios.studying).
  repeat constructor; discriminate.
Defined.

Lemma step_ClickNext st :
  App.view st = FLASHCARDS ->
  (0 <= App.flashcardIndex st < Z.of_nat (length (App.notebook st)))%Z ->
  Forall (fun e => examples e ≠ []) (App.notebook st) ->
  App.step App.ClickNext st
  = App.Finished (App.setFlashcardIndex (App.onNext (App.notebook st)) st) [].
Proof.
  intros Hview Hi Hex.
  destruct (renderFlashcards_Return st Hi Hex) as (e & ex & c & _ & _ & Hrender & _).
  unfold App.step, App.crashed. by rewrite Hview, Hrender.
Qed.

Lemma run_ClickNext (k : nat) st :
  App.view st = FLASHCARDS ->
  (0 <= App.flashcardIndex st < Z.of_nat (length (App.notebook st)))%Z ->
  Forall (fun e => examples e ≠ []) (App.notebook st) ->
  App.run (replicate k App.ClickNext) st
  = App.Finished
      (App.setFlashcardIndex
         (fun i => ((i + Z.of_nat k) mod Z.of_nat (length (App.notebook st)))%Z) st)
      [].
Proof.
  revert st. induction k as [|k IH]; intros st Hview Hi Hex.
  - simpl. f_equal. destruct st as [v nb s c b r i t g].
    unfold App.setFlashcardIndex. simpl in *. f_equal.
    rewrite Z.add_0_r. symmetry. apply Z.mod_small. lia.
  - assert (App.notebook st ≠ []) as Hnb by (intros Heq; rewrite Heq in Hi; simpl in Hi; lia).
    simpl. rewrite step_ClickNext by done.
    rewrite IH; try done.
    + simpl. f_equal. unfold App.setFlashcardIndex. simpl. f_equal.
      rewrite onNext_mod by (done || lia).
      rewrite Zplus_mod_idemp_l. f_equal. lia.
    + simpl. by apply onNext_in_range; [|lia].
Qed.

(** X7: the study view walks the notebook in a cycle: on a notebook whose
    entries all have an example, k clicks on Next move a cursor within
    the notebook k places forward, wrapping around, so as many clicks as
    there are cards lead back to the state they started from. *)
Theorem next_walks_in_a_cycle st :
  App.view st = FLASHCARDS ->
  (0 <= App.flashcardIndex st < Z.of_nat (length (App.notebook st)))%Z ->
  Forall (fun e => examples e ≠ []) (App.notebook st) ->
  (forall k : nat,
      exists st',
        App.run (replicate k App.ClickNext) st = App.Finished st' []
        /\ App.notebook st' = App.notebook st
        /\ App.flashcardIndex st'
           = ((App.flashcardIndex st + Z.of_nat k)
                mod Z.of_nat (length (App.notebook st)))%Z)
  /\ App.run (replicate (length (App.notebook st)) App.ClickNext) st
     = App.Finished st [].
Proof.
  intros Hview Hi Hex. split.
  - intros k. rewrite run_ClickNext by done. by eexists.
  - rewrite run_ClickNext by done. f_equal.
    destruct st as [v nb s c b r i t g].
    unfold App.setFlashcardIndex. simpl in *. f_equal.
    replace (i + Z.of_nat (length nb))%Z with (i + 1 * Z.of_nat (length nb))%Z by lia.
    rewrite Z.mod_add by lia. apply Z.mod_small. lia.
Qed.

Lemma next_walks_in_a_cycle_witness :
  (forall k : nat,
      exists st',
        App.run (replicate k App.ClickNext) scenarios.studying = App.Finished st' []
        /\ App.notebook st' = App.notebook scenarios.studying
        /\ App.flashcardIndex st'
           = ((App.flashcardIndex scenarios.studying + Z.of_nat k)
                mod Z.of_nat (length (App.notebook scenarios.studying)))%Z)
  /\ App.run (replicate (length (App.notebook scenarios.studying)) App.ClickNext)
       scenarios.studying
     = App.Finished scenarios.studying [].
Proof.
  apply (next_walks_in_a_cycle scenarios.studying).
  - reflexivity.
  - simpl. lia.
  - repeat constructor; discriminate.
Defined.

End StudyWalk.

(** ** What a session can reach *)

Section Sessions.

Implicit Types (nb : list DictionaryEntry) (st : App.state) (a : App.action).
Implicit Types (tr : list effect).

(** What a run of [handleSearch] leaves alone. *)
Lemma handleSearch_frame env st st' tr :
  App.handleSearch env st = App.Finished st' tr ->
  App.view st' = App.view st
  /\ App.notebook st' = App.notebook st
  /\ App.searchTerm st' = App.searchTerm st
  /\ App.context st' = App.context st
  /\ App.flashcardIndex st' = App.flashcardIndex st
  /\ App.story st' = App.story st
  /\ App.isGeneratingStory st' = App.isGeneratingStory st.
Proof.
  destruct (handleSearch_cases env st)
    as [->|[->|[[payload ->]|(entry & tr' & ->)]]];
    [by intros [= <- _]..|done|by intros [= <- _]].
Qed.

Lemma renderFlashcards_card st c :
  App.renderFlashcards st = Return (Some c) -> App.notebook st ≠ [].
Proof. unfold App.renderFlashcards. intros H Hnb. by rewrite Hnb in H. Qed.

Lemma step_cursor_nonneg a st st' tr :
  (0 <= App.flashcardIndex st)%Z ->
  App.step a st = App.Finished st' tr ->
  (0 <= App.flashcardIndex st')%Z.
Proof.
  intros Hi. unfold App.step.
  destruct (App.crashed st); [by intros [= <- _]|].
  destruct a as [s|s|env| |row|reply|v| |], (App.view st);
    try (by intros [= <- _]).
  - destruct (_ || _); [by intros [= <- _]|].
    intros ->%handleSearch_cursor. done.
  - destruct (App.currentResult st); by intros [= <- _].
  - destruct (App.notebook st !! row); by intros [= <- _].
  - destruct (App.story_disabled st); [by intros [= <- _]|].
    unfold App.handleGenerateStory.
    destruct (_ =? _)%nat; [by intros [= <- _]|].
    destruct (geminiService.generateStoryFromList reply); by intros [= <- _].
  - destruct v; by intros [= <- _].
  - destruct v; by intros [= <- _].
  - destruct v; by intros [= <- _].
  - destruct v; by intros [= <- _].
  - destruct (App.renderFlashcards st) as [[c|]|] eqn:Hrender;
      intros [= <- _]; [|done..].
    simpl. apply onNext_in_range; [by eapply renderFlashcards_card | done].
  - destruct (App.renderFlashcards st) as [[c|]|] eqn:Hrender;
      intros [= <- _]; [|done..].
    simpl. apply onPrev_in_range; [by eapply renderFlashcards_card | done].
Qed.

(** X8: in a session that starts from a stored list of entries and whose
    explanations all have the declared shape, the cursor of the study
    view is never negative, so that a render of the study view throws for
    one of two reasons only, and always for either: the notebook is not
    empty, and the cursor lies at or beyond its end or the entry under it
    has no example. *)
Theorem study_view_throws_for_two_reasons nb actions st tr :
  App.run actions (App.init nb) = App.Finished st tr ->
  (0 <= App.flashcardIndex st)%Z
  /\ ((exists e, App.renderFlashcards st = Throw e) <->
      App.notebook st ≠ []
      /\ ((Z.of_nat (length (App.notebook st)) <= App.flashcardIndex st)%Z
          \/ exists entry,
              App.notebook st !! Z.to_nat (App.flashcardIndex st) = Some entry
              /\ examples entry = [])).
Proof.
  intros Hrun.
  assert (0 <= App.flashcardIndex st)%Z as Hi.
  { apply (run_invariant (fun st => (0 <= App.flashcardIndex st)%Z))
      with (actions := actions) (st := App.init nb) (tr := tr); [|done..].
    intros a st0 st1 tr1 H0 H1. by eapply step_cursor_nonneg. }
  split; [done|].
  unfold App.renderFlashcards, App.at_index, Flashcard.render.
  destruct (App.notebook st) as [|n rest] eqn:Hnb.
  { simpl. split; [by intros [e He] | by intros [Hne _]]. }
  rewrite <- Hnb.
  replace (length (App.notebook st) =? 0)%nat with false by (by rewrite Hnb).
  replace (App.flashcardIndex st <? 0)%Z with false by lia. simpl.
  destruct (App.notebook st !! Z.to_nat (App.flashcardIndex st)) as [entry|] eqn:He.
  - apply lookup_lt_Some in He as Hlt. split.
    + intros [e Hthrow]. split; [by rewrite Hnb|].
      right. exists entry. split; [done|]. by destruct (examples entry).
    + intros [_ [Hge|(entry' & [= <-] & Hex)]]; [lia|].
      rewrite Hex. by eexists.
  - split; [|by eexists].
    intros _. split; [by rewrite Hnb|]. left. apply lookup_ge_None in He. lia.
Qed.

Lemma study_view_throws_for_two_reasons_witness :
  exists st tr,
    App.run (scenarios.session ++ [App.Navigate FLASHCARDS]) (App.init [])
    = App.Finished st tr
    /\ (0 <= App.flashcardIndex st)%Z
    /\ ((exists e, App.renderFlashcards st = Throw e) <->
        App.notebook st ≠ []
        /\ ((Z.of_nat (length (App.notebook st)) <= App.flashcardIndex st)%Z
            \/ exists entry,
                App.notebook st !! Z.to_nat (App.flashcardIndex st) = Some entry
                /\ examples entry = [])).
Proof.
  eexists _, _. split; [vm_compute; reflexivity|].
  eapply (study_view_throws_for_two_reasons
            [] (scenarios.session ++ [App.Navigate FLASHCARDS])).
  vm_compute. reflexivity.
Defined.

Lemma generateStoryFromList_nonempty reply result :
  geminiService.generateStoryFromList reply = Return result -> result ≠ [].
Proof.
  unfold geminiService.generateStoryFromList.
  destruct reply as [response|]; [|done].
  destruct (geminiService.text response) as [[|c t]|]; simpl; by intros [= <-].
Qed.

Lemma step_story a st st' tr :
  (App.view st = STORY -> exists s, App.story st = Some s /\ s ≠ []) ->
  App.step a st = App.Finished st' tr ->
  App.view st' = STORY -> exists s, App.story st' = Some s /\ s ≠ [].
Proof.
  intros Hst. unfold App.step.
  destruct (App.crashed st); [by intros [= <- _]|].
  destruct a as [s|s|env| |row|reply|v| |], (App.view st) eqn:Hview;
    try (intros [= <- _]; simpl; rewrite ?Hview; first [done | exact Hst]).
  - destruct (_ || _); [intros [= <- _]; by rewrite Hview|].
    intros (Hv & _ & _ & _ & _ & Hs & _)%handleSearch_frame.
    by rewrite Hv, Hview.
  - destruct (App.currentResult st); intros [= <- _]; simpl; by rewrite Hview.
  - destruct (App.notebook st !! row); intros [= <- _]; simpl; by rewrite Hview.
  - destruct (App.story_disabled st); [intros [= <- _]; by rewrite Hview|].
    unfold App.handleGenerateStory.
    destruct (_ =? _)%nat; [intros [= <- _]; by rewrite Hview|].
    destruct (geminiService.generateStoryFromList reply) as [result|] eqn:Hgen;
      intros [= <- _]; simpl; [|by rewrite Hview].
    intros _. exists result. split; [done|].
    by eapply generateStoryFromList_nonempty.
  - destruct v; intros [= <- _]; simpl; by rewrite ?Hview.
  - destruct v; intros [= <- _]; simpl; by rewrite ?Hview.
  - destruct v; intros [= <- _]; simpl; by rewrite ?Hview.
  - destruct v; intros [= <- _]; simpl; rewrite ?Hview; first [done | exact Hst].
  - destruct (App.renderFlashcards st) as [[c|]|]; intros [= <- _]; simpl;
      by rewrite Hview.
  - destruct (App.renderFlashcards st) as [[c|]|]; intros [= <- _]; simpl;
      by rewrite Hview.
Qed.

(** X9: the story view never shows an empty page: in whatever state a
    session ends, if the view is the story view then the state holds a
    story, and its text is not empty. *)
Theorem story_view_has_a_story nb actions st tr :
  App.run actions (App.init nb) = App.Finished st tr ->
  App.view st = STORY ->
  exists s, App.story st = Some s /\ s ≠ [].
Proof.
  intros Hrun.
  apply (run_invariant
           (fun st => App.view st = STORY -> exists s, App.story st = Some s /\ s ≠ []))
    with (actions := actions) (st := App.init nb) (tr := tr); [|done..].
  intros a st0 st1 tr1 H0 H1. by eapply step_story.
Qed.

Lemma story_view_has_a_story_witness :
  exists st tr,
    App.run scenarios.storytelling (App.init [samples.toque; samples.double_double])
    = App.Finished st tr
    /\ exists s, App.story st = Some s /\ s ≠ [].
Proof.
  eexists _, _. split; [vm_compute; reflexivity|].
  eapply (story_view_has_a_story [samples.toque; samples.double_double]
            scenarios.storytelling).
  - vm_compute. reflexivity.
  - reflexivity.
Defined.

(** X10: a click on an enabled Story Mode button ends with the spinner
    off, the notebook as it was and no alert.  When the request is
    rejected the user stays on the notebook, the failure goes to the
    console only, and the story of an earlier run is gone; when it is
    answered the story view opens on the text of the answer, or on the
    fixed fallback when that text is missing or empty. *)
Theorem story_generation_outcomes st reply :
  App.view st = NOTEBOOK ->
  App.story_disabled st = false ->
  exists st' tr,
    App.step (App.ClickStoryMode reply) st = App.Finished st' tr
    /\ App.isGeneratingStory st' = false
    /\ App.notebook st' = App.notebook st
    /\ (forall message, alert message ∉ tr)
    /\ match reply with
       | Rejected =>
         App.view st' = NOTEBOOK /\ App.story st' = None
         /\ tr = [generateStoryFromList_called (term <$> App.notebook st); console_error]
       | Fulfilled response =>
         App.view st' = STORY
         /\ App.story st'
            = Some (match geminiService.text response with
                    | Some (c :: t) => c :: t
                    | _ => js "Could not generate story."
                    end)
         /\ tr = [generateStoryFromList_called (term <$> App.notebook st)]
       end.
Proof.
  intros Hview Hen. unfold App.step, App.crashed. rewrite Hview, Hen.
  unfold App.handleGenerateStory.
  apply story_disabled_spec in Hen as [Hlen _].
  destruct (App.notebook st) as [|n nb] eqn:Hnb; [simpl in Hlen; lia|].
  simpl. destruct reply as [response|]; simpl.
  - eexists _, _. split; [reflexivity|]. simpl. rewrite Hnb.
    repeat split.
    + intros message [[=]|Hin%elem_of_nil]%elem_of_cons. done.
    + by destruct (geminiService.text response) as [[|c t]|].
  - eexists _, _. split; [reflexivity|]. simpl. rewrite Hnb, Hview.
    repeat split.
    intros message Hin. repeat (apply elem_of_cons in Hin as [[=]|Hin]).
    by apply elem_of_nil in Hin.
Qed.

Lemma story_generation_outcomes_witness :
  exists st' tr,
    App.step (App.ClickStoryMode Rejected) scenarios.browsing = App.Finished st' tr
    /\ App.isGeneratingStory st' = false
    /\ App.notebook st' = App.notebook scenarios.browsing
    /\ (forall message, alert message ∉ tr)
    /\ App.view st' = NOTEBOOK /\ App.story st' = None
    /\ tr = [generateStoryFromList_called (term <$> App.notebook scenarios.browsing);
             console_error].
Proof.
  apply (story_generation_outcomes scenarios.browsing Rejected); reflexivity.
Defined.

End Sessions.

(** ** The search handler and the gateway calls behind it *)

Section SearchDetails.

Implicit Types (st : App.state) (env : App.search_env) (tr : list effect).
Implicit Types (reply : settled geminiService.GenerateContentResponse).

(** X11: a term made of white space only starts no search: the click on
    Explain, enabled for it, calls nothing and changes nothing. *)
Theorem blank_term_starts_no_search env st :
  trim (App.searchTerm st) = [] ->
  App.handleSearch env st = App.Finished st []
  /\ App.step (App.ClickExplain env) st = App.Finished st [].
Proof.
  intros Hblank.
  assert (App.handleSearch env st = App.Finished st []) as Hnothing.
  { unfold App.handleSearch. by rewrite Hblank. }
  split; [done|]. unfold App.step.
  destruct (App.crashed st); [done|].
  destruct (App.view st); try done.
  by destruct (_ || _).
Qed.

Lemma blank_term_starts_no_search_witness :
  App.handleSearch samples.env_unparsable scenarios.blank
  = App.Finished scenarios.blank []
  /\ App.step (App.ClickExplain samples.env_unparsable) scenarios.blank
     = App.Finished scenarios.blank [].
Proof.
  apply (blank_term_starts_no_search samples.env_unparsable scenarios.blank).
  reflexivity.
Defined.

(** X12: a run of the search handler touches the result and the spinner
    only: the view, the notebook, the two input boxes, the cursor and the
    story are as before; and unless it returned at once, it began with
    the call of [explainTerm] on the term and context as typed and ended
    with the spinner off. *)
Theorem search_touches_only_the_result env st st' tr :
  App.handleSearch env st = App.Finished st' tr ->
  App.view st' = App.view st
  /\ App.notebook st' = App.notebook st
  /\ App.searchTerm st' = App.searchTerm st
  /\ App.context st' = App.context st
  /\ App.flashcardIndex st' = App.flashcardIndex st
  /\ App.story st' = App.story st
  /\ (st' = st /\ tr = []
      \/ App.isSearching st' = false
         /\ head tr = Some (explainTerm_called (App.searchTerm st) (App.context st))).
Proof.
  intros Hrun.
  destruct (handleSearch_frame env st st' tr Hrun) as (? & ? & ? & ? & ? & ? & _).
  repeat (split; [done|]).
  revert Hrun. unfold App.handleSearch.
  destruct (negb _); [intros [= <- <-]; by left|].
  destruct (geminiService.explainTerm _) as [payload|e];
    [|intros [= <- <-]; by right].
  destruct payload; [intros [= <- <-]; by right|..];
    (destruct (geminiService.explanation_of_json _); [|done]);
    destruct (geminiService.generateConceptImage _);
    intros [= <- <-]; by right.
Qed.

Lemma search_touches_only_the_result_witness :
  exists st' tr,
    App.handleSearch (samples.env_no_image samples.payload) (samples.typed "toque")
    = App.Finished st' tr
    /\ App.view st' = App.view (samples.typed "toque")
    /\ App.notebook st' = App.notebook (samples.typed "toque")
    /\ App.searchTerm st' = App.searchTerm (samples.typed "toque")
    /\ App.context st' = App.context (samples.typed "toque")
    /\ App.flashcardIndex st' = App.flashcardIndex (samples.typed "toque")
    /\ App.story st' = App.story (samples.typed "toque")
    /\ (st' = samples.typed "toque" /\ tr = []
        \/ App.isSearching st' = false
           /\ head tr = Some (explainTerm_called (App.searchTerm (samples.typed "toque"))
                                (App.context (samples.typed "toque")))).
Proof.
  eexists _, _. split; [vm_compute; reflexivity|].
  eapply (search_touches_only_the_result
            (samples.env_no_image samples.payload) (samples.typed "toque")).
  vm_compute. reflexivity.
Defined.



(** X14: [explainTerm] returns a value exactly when the request is
    answered with a text that is a JSON text, and the value is what the
    text denotes; the test for an empty text only changes which error a
    text that could not be parsed anyway ends in. *)
Theorem explainTerm_returns_the_parsed_text reply v :
  geminiService.explainTerm reply = Return v <->
  exists response t,
    reply = Fulfilled response
    /\ geminiService.text response = Some t
    /\ JSON.read t = Some v.
Proof.
  unfold geminiService.explainTerm, JSON.parse. split.
  - destruct reply as [response|]; [|done].
    destruct (geminiService.text response) as [t|] eqn:Ht; [|done].
    destruct (truthy_string t); [|done].
    destruct (JSON.read t) as [v'|] eqn:Hread; [|done].
    intros [= <-]. by exists response, t.
  - intros (response & t & -> & -> & Hread).
    destruct t as [|c t]; [by rewrite read_empty in Hread|].
    simpl. by rewrite Hread.
Qed.

Lemma image_of_parts_Some ps uri :
  geminiService.image_of_parts ps = Some uri <->
  exists before part blob after,
    ps = before ++ part :: after
    /\ Forall (fun p => geminiService.inlineData p = None) before
    /\ geminiService.inlineData part = Some blob
    /\ uri = js "data:" ++ interpolate (geminiService.mimeType blob)
             ++ js ";base64," ++ interpolate (geminiService.data blob).
Proof.
  split.
  - induction ps as [|p ps IH]; simpl; [done|].
    destruct (geminiService.inlineData p) as [blob|] eqn:Hp.
    + intros [= <-]. by exists [], p, blob, ps.
    + intros (before & part & blob & after & -> & Hb & Hpart & ->)%IH.
      exists (p :: before), part, blob, after. by repeat split; [constructor|..].
  - intros (before & part & blob & after & -> & Hbefore & Hpart & ->).
    induction Hbefore as [|p before Hp _ IH]; simpl.
    + by rewrite Hpart.
    + by rewrite Hp.
Qed.

(** X15: [generateConceptImage] yields an image exactly when the request
    is answered and the parts of the first candidate hold one with inline
    data; the image is the data URI of the first such part, whatever comes
    after it, and the other candidates are never looked at.  It writes to
    the console exactly when the request is rejected. *)
Theorem image_is_the_first_inline_part reply :
  (forall uri,
      (geminiService.generateConceptImage reply).1 = Some uri <->
      exists response before part blob after,
        reply = Fulfilled response
        /\ geminiService.first_parts response = Some (before ++ part :: after)
        /\ Forall (fun p => geminiService.inlineData p = None) before
        /\ geminiService.inlineData part = Some blob
        /\ uri = js "data:" ++ interpolate (geminiService.mimeType blob)
                 ++ js ";base64," ++ interpolate (geminiService.data blob))
  /\ (forall response c others,
      reply = Fulfilled response ->
      geminiService.candidates response = Some (c :: others) ->
      geminiService.generateConceptImage reply
      = geminiService.generateConceptImage
          (Fulfilled {| geminiService.text := geminiService.text response;
                        geminiService.candidates := Some [c] |}))
  /\ ((geminiService.generateConceptImage reply).2 ≠ [] <-> reply = Rejected).
Proof.
  split; [|split].
  - intros uri. unfold geminiService.generateConceptImage.
    destruct reply as [response|]; simpl.
    + destruct (geminiService.first_parts response) as [ps|] eqn:Hps; simpl.
      * rewrite image_of_parts_Some. split.
        -- intros (before & part & blob & after & -> & ? & ? & ?).
           by exists response, before, part, blob, after.
        -- intros (r & before & part & blob & after & [= <-] & Hparts & ? & ? & ?).
           rewrite Hps in Hparts. injection Hparts as ->.
           by exists before, part, blob, after.
      * split; [done|].
        intros (r & before & part & blob & after & [= <-] & Hparts & _).
        by rewrite Hps in Hparts.
    + split; [done|]. by intros (r & before & part & blob & after & [=] & _).
  - intros response c others -> Hcs.
    unfold geminiService.generateConceptImage, geminiService.first_parts.
    simpl. by rewrite Hcs.
  - unfold geminiService.generateConceptImage.
    destruct reply as [response|]; simpl; [|done].
    destruct (geminiService.first_parts response); simpl; split; done.
Qed.

Example image_of_second_part :
  (geminiService.generateConceptImage (Fulfilled scenarios.image_response)).1
  = Some (js "data:image/png;base64,iVBORw0KGgo=").
Proof. reflexivity. Qed.

End SearchDetails.

(** ** The speech path *)

Section Base64.

Import tts.

Implicit Types (bytes : list Byte.byte) (s : jsstring).

(** Induction over a list of bytes three at a time, as the encoding reads it. *)
Lemma byte_triples_ind (P : list Byte.byte -> Prop) :
  P [] ->
  (forall a, P [a]) ->
  (forall a b, P [a; b]) ->
  (forall a b c rest, P rest -> P (a :: b :: c :: rest)) ->
  forall bytes, P bytes.
Proof.
  intros H0 H1 H2 H3.
  assert (forall bytes, P bytes /\ (forall a, P (a :: bytes))
                        /\ forall a b, P (a :: b :: bytes)) as Hall.
  { induction bytes as [|c bytes (IH0 & IH1 & IH2)]; repeat split; auto. }
  intros bytes. apply Hall.
Qed.

Ltac euclid := zify; Z.to_euclidean_division_equations; lia.

Lemma sextets_of_bound bytes : Forall (fun x => (x < 64)%N) (sextets_of bytes).
Proof.
  induction bytes as [|a|a b|a b c rest IH] using byte_triples_ind; simpl.
  - constructor.
  - pose proof (Byte.to_N_bounded a). repeat constructor; euclid.
  - pose proof (Byte.to_N_bounded a). pose proof (Byte.to_N_bounded b).
    repeat constructor; euclid.
  - pose proof (Byte.to_N_bounded a). pose proof (Byte.to_N_bounded b).
    pose proof (Byte.to_N_bounded c).
    repeat (constructor; [euclid|]). done.
Qed.

Lemma digit_sextet (x : N) : (x < 64)%N -> sextet (digit x) = Some x.
Proof.
  intros Hx. unfold digit, sextet.
  repeat match goal with
  | |- context [(?a <? ?b)%N] => destruct (N.ltb_spec a b)
  | |- context [(?a <=? ?b)%N] => destruct (N.leb_spec a b)
  | |- context [(?a =? ?b)%N] => destruct (N.eqb_spec a b)
  end; simpl; try lia; f_equal; lia.
Qed.

Lemma sextet_char (c x : N) :
  sextet c = Some x -> is_ascii_whitespace c = false /\ c <> 61%N.
Proof.
  unfold sextet, is_ascii_whitespace. simpl.
  repeat match goal with
  | |- context [(?a <=? ?b)%N] => destruct (N.leb_spec a b)
  | |- context [(?a =? ?b)%N] => destruct (N.eqb_spec a b)
  end; simpl; try done; intros _; split; lia.
Qed.

Lemma digit_char (x : N) :
  (x < 64)%N -> is_ascii_whitespace (digit x) = false /\ digit x <> 61%N.
Proof. intros Hx. eapply sextet_char, digit_sextet, Hx. Qed.

Lemma padding_triple a b c rest : padding (a :: b :: c :: rest) = padding rest.
Proof.
  unfold padding. simpl List.length.
  replace (S (S (S (List.length rest)))) with (List.length rest + 1 * 3)%nat by lia.
  by rewrite Nat.Div0.mod_add.
Qed.

Lemma encode_split bytes :
  encode bytes = map digit (sextets_of bytes) ++ padding bytes.
Proof.
  induction bytes as [|a|a b|a b c rest IH] using byte_triples_ind; try done.
  rewrite padding_triple. simpl. by rewrite IH.
Qed.

Lemma length_sextets_of bytes :
  (List.length (sextets_of bytes) mod 4)%nat
  = match (List.length bytes mod 3)%nat with
    | 1%nat => 2%nat
    | 2%nat => 3%nat
    | _ => 0%nat
    end.
Proof.
  induction bytes as [|a|a b|a b c rest IH] using byte_triples_ind; try done.
  simpl sextets_of. simpl List.length.
  replace (S (S (S (S (List.length (sextets_of rest))))))
    with (List.length (sextets_of rest) + 1 * 4)%nat by lia.
  replace (S (S (S (List.length rest)))) with (List.length rest + 1 * 3)%nat by lia.
  by rewrite !Nat.Div0.mod_add.
Qed.

Lemma length_encode bytes : (List.length (encode bytes) mod 4 = 0)%nat.
Proof.
  induction bytes as [|a|a b|a b c rest IH] using byte_triples_ind; try done.
  simpl encode. simpl List.length.
  replace (S (S (S (S (List.length (encode rest))))))
    with (List.length (encode rest) + 1 * 4)%nat by lia.
  by rewrite Nat.Div0.mod_add.
Qed.

Lemma digits_not_padding bytes :
  Forall (fun c => is_ascii_whitespace c = false /\ c <> 61%N)
         (map digit (sextets_of bytes)).
Proof.
  induction (sextets_of_bound bytes) as [|x l Hx _ IH]; simpl; constructor;
    [by apply digit_char | done].
Qed.

Lemma filter_whitespace_encode bytes :
  List.filter (fun c => negb (is_ascii_whitespace c)) (encode bytes) = encode bytes.
Proof.
  rewrite encode_split.
  assert (Forall (fun c => is_ascii_whitespace c = false)
                 (map digit (sextets_of bytes) ++ padding bytes)) as Hall.
  { apply Forall_app. split.
    - induction (digits_not_padding bytes) as [|c l [Hc _] _ IH];
        constructor; done.
    - unfold padding. destruct (_ mod 3)%nat as [|[|[|?]]]; by repeat constructor. }
  induction Hall as [|c l Hc _ IH]; simpl; [done|]. by rewrite Hc, IH.
Qed.

Lemma rev_last_not_padding l :
  Forall (fun c => is_ascii_whitespace c = false /\ c <> 61%N) l ->
  match rev l with
  | c :: _ => (c =? 61)%N = false
  | [] => True
  end.
Proof.
  intros Hl. apply Forall_rev in Hl.
  destruct (rev l) as [|c r]; [done|].
  apply Forall_cons in Hl as [[_ Hc] _]. by apply N.eqb_neq.
Qed.

Lemma strip_padding_encode bytes :
  strip_padding (encode bytes) = map digit (sextets_of bytes).
Proof.
  unfold strip_padding. rewrite length_encode. simpl.
  rewrite encode_split.
  pose proof (rev_last_not_padding _ (digits_not_padding bytes)) as Hlast.
  pose proof (length_sextets_of bytes) as Hlen.
  unfold padding. destruct (List.length bytes mod 3)%nat as [|[|[|?]]].
  - rewrite app_nil_r. destruct (rev (map digit (sextets_of bytes))) as [|c r]; [done|].
    by rewrite Hlast.
  - rewrite rev_app_distr. simpl. by rewrite rev_involutive.
  - rewrite rev_app_distr. simpl.
    destruct (rev (map digit (sextets_of bytes))) as [|c r] eqn:Hrev.
    + by rewrite <- (rev_involutive (map _ _)), Hrev.
    + rewrite Hlast. by rewrite <- Hrev, rev_involutive.
  - rewrite app_nil_r. destruct (rev (map digit (sextets_of bytes))) as [|c r]; [done|].
    by rewrite Hlast.
Qed.

Lemma mapM_sextet_digits (l : list N) :
  Forall (fun x => (x < 64)%N) l -> mapM sextet (map digit l) = Some l.
Proof.
  induction 1 as [|x l Hx _ IH]; [done|].
  simpl. rewrite digit_sextet by done. simpl. by rewrite IH.
Qed.

Lemma sextets_to_bytes_of bytes :
  sextets_to_bytes (sextets_of bytes) = map Byte.to_N bytes.
Proof.
  induction bytes as [|a|a b|a b c rest IH] using byte_triples_ind.
  - done.
  - pose proof (Byte.to_N_bounded a). cbn [sextets_of sextets_to_bytes map].
    f_equal. euclid.
  - pose proof (Byte.to_N_bounded a). pose proof (Byte.to_N_bounded b).
    cbn [sextets_of sextets_to_bytes map].
    f_equal; [euclid|]. f_equal. euclid.
  - pose proof (Byte.to_N_bounded a). pose proof (Byte.to_N_bounded b).
    pose proof (Byte.to_N_bounded c).
    cbn [sextets_of sextets_to_bytes map]. rewrite IH.
    f_equal; [euclid|]. f_equal; [euclid|]. f_equal. euclid.
Qed.

Lemma to_uint8_to_N (b : Byte.byte) : to_uint8 (Byte.to_N b) = b.
Proof.
  unfold to_uint8. pose proof (Byte.to_N_bounded b).
  rewrite N.mod_small by lia. by rewrite Byte.of_to_N.
Qed.

Lemma map_to_uint8_to_N bytes : map to_uint8 (map Byte.to_N bytes) = bytes.
Proof.
  induction bytes as [|b bytes IH]; [done|].
  cbn [map]. by rewrite to_uint8_to_N, IH.
Qed.

Lemma decodeBase64_encode bytes : decodeBase64 (encode bytes) = Some bytes.
Proof.
  unfold decodeBase64, atob.
  rewrite filter_whitespace_encode, strip_padding_encode.
  rewrite length_map.
  pose proof (length_sextets_of bytes) as Hlen.
  replace (List.length (sextets_of bytes) mod 4 =? 1)%nat with false.
  2: { symmetry. apply Nat.eqb_neq. rewrite Hlen.
       by destruct (List.length bytes mod 3)%nat as [|[|[|?]]]. }
  rewrite mapM_sextet_digits by apply sextets_of_bound. simpl.
  by rewrite sextets_to_bytes_of, map_to_uint8_to_N.
Qed.

(** X16: [decodeBase64] undoes the base64 encoding: the bytes the service
    encoded are the bytes it returns, whatever their number; and white
    space inside the text changes nothing. *)
Theorem decodeBase64_inverts_the_encoding bytes :
  decodeBase64 (encode bytes) = Some bytes
  /\ forall s1 s2 w,
      is_ascii_whitespace w = true ->
      decodeBase64 (s1 ++ w :: s2) = decodeBase64 (s1 ++ s2).
Proof.
  split; [apply decodeBase64_encode|].
  intros s1 s2 w Hw. unfold decodeBase64, atob.
  rewrite !List.filter_app. simpl. by rewrite Hw.
Qed.

End Base64.

Section Speech.

Import geminiService tts.

Implicit Types (env : speech_env) (bytes : list Byte.byte).

Lemma playTTS_never_throws_aux env : exists sounds, playTTS env = finished sounds.
Proof. unfold playTTS. destruct (speak env); by eexists. Qed.

(** X17: [playTTS] never throws: whatever the service answers and
    whatever the platform allows, it returns, having done at most one
    thing: started one playback or written one line to the console. *)
Theorem playTTS_never_throws env :
  exists sounds,
    playTTS env = finished sounds
    /\ (sounds = []
        \/ sounds = [console_error_TTS]
        \/ exists buffer, sounds = [source_start buffer]).
Proof.
  unfold playTTS. destruct (speak env) as [sounds|r] eqn:Hspeak.
  - exists sounds. split; [done|]. revert Hspeak. unfold speak.
    destruct (speech_reply env) as [response|]; [|done].
    destruct (truthy_opt _); [|intros [= <-]; by left].
    destruct (context_created env); [|done].
    destruct (decodeBase64 _) as [bytes|]; [|done].
    destruct (pcmToAudioBuffer bytes _) as [buffer|]; [|done].
    intros [= <-]. right. right. by exists buffer.
  - eexists. split; [done|]. right. by left.
Qed.

(** X18: the speaker button of the result card cannot get stuck: its
    handler has no [finally], but since [playTTS] never throws, a click
    on a button that is not busy always ends with the button free again. *)
Theorem speaker_button_never_sticks env :
  exists sounds, handleAudio env false = finished (false, sounds).
Proof.
  unfold handleAudio. destruct (playTTS_never_throws_aux env) as [sounds ->].
  by exists sounds.
Qed.

Lemma encode_nonempty bytes : bytes ≠ [] -> encode bytes ≠ [].
Proof. by destruct bytes as [|a [|b [|c rest]]]. Qed.

(** X19: from the service to the loudspeaker: when the first part of the
    answer carries the base64 text of at least two bytes and the platform
    provides an audio context, [playTTS] starts the playback of exactly
    one buffer: one channel at 24000 Hz, one sample per pair of bytes,
    each the 16-bit integer of the pair over 32768 and so between -1 and
    1. *)
Theorem speech_plays_the_encoded_samples env response bytes :
  speech_reply env = Fulfilled response ->
  first_audio response = Some (encode bytes) ->
  context_created env = true ->
  (2 <= List.length bytes)%nat ->
  playTTS env
  = finished
      [source_start
         {| numberOfChannels := 1;
            length := Z.of_nat (List.length bytes / 2);
            sampleRate := 24000;
            getChannelData := [(fun s => (s # 32768)%Q) <$> Int16Array bytes] |}]
  /\ forall x, x ∈ (fun s => (s # 32768)%Q) <$> Int16Array bytes ->
               (-1 <= x)%Q /\ (x <= 1)%Q.
Proof.
  intros Hreply Haudio Hctx Hlen. split.
  - unfold playTTS, speak. rewrite Hreply, Haudio, Hctx. simpl.
    assert (encode bytes ≠ []) as Hne.
    { apply encode_nonempty. intros ->. simpl in Hlen. lia. }
    destruct (encode bytes) as [|c t] eqn:Henc; [done|]. simpl.
    rewrite <- Henc, decodeBase64_encode.
    by rewrite pcmToAudioBuffer_Return.
  - intros x (s & -> & Hs)%list_elem_of_fmap.
    apply sample_range. by eapply Int16Array_range.
Qed.

Lemma speech_plays_the_encoded_samples_witness :
  playTTS scenarios.speaking
  = finished
      [source_start
         {| numberOfChannels := 1;
            length := Z.of_nat (List.length samples.pcm / 2);
            sampleRate := 24000;
            getChannelData := [(fun s => (s # 32768)%Q) <$> Int16Array samples.pcm] |}]
  /\ forall x, x ∈ (fun s => (s # 32768)%Q) <$> Int16Array samples.pcm ->
               (-1 <= x)%Q /\ (x <= 1)%Q.
Proof.
  apply (speech_plays_the_encoded_samples scenarios.speaking
           scenarios.audio_response samples.pcm).
  - reflexivity.
  - reflexivity.
  - reflexivity.
  - simpl. lia.
Defined.

(** X20: [playTTS] looks for audio in the first part of the first
    candidate only: when that part carries no inline data, nothing is
    played and nothing is logged, whatever the parts after it carry. *)
Theorem speech_reads_only_the_first_part env response c others ct part rest :
  speech_reply env = Fulfilled response ->
  candidates response = Some (c :: others) ->
  content c = Some ct ->
  parts ct = Some (part :: rest) ->
  inlineData part = None ->
  playTTS env = finished [].
Proof.
  intros Hreply Hcs Hct Hps Hpart.
  unfold playTTS, speak, first_audio.
  rewrite Hreply, Hcs. simpl. rewrite Hct. simpl. rewrite Hps. simpl.
  by rewrite Hpart.
Qed.

Lemma speech_reads_only_the_first_part_witness :
  playTTS {| speech_reply := Fulfilled scenarios.image_response;
             context_created := true |}
  = finished [].
Proof.
  eapply (speech_reads_only_the_first_part
            {| speech_reply := Fulfilled scenarios.image_response;
               context_created := true |}); reflexivity.
Defined.

(** X21: audio that cannot be played is logged and dropped: when the
    answer carries a text that is no base64 text, or that decodes to
    fewer than two bytes, or when the platform provides no audio context,
    [playTTS] writes one line to the console and plays nothing. *)
Theorem unplayable_speech_is_logged env response base64 :
  speech_reply env = Fulfilled response ->
  first_audio response = Some base64 ->
  base64 ≠ [] ->
  context_created env = false
  \/ decodeBase64 base64 = None
  \/ (exists bytes, decodeBase64 base64 = Some bytes /\ (List.length bytes < 2)%nat) ->
  playTTS env = finished [console_error_TTS].
Proof.
  intros Hreply Haudio Hne Hbad.
  unfold playTTS, speak. rewrite Hreply, Haudio. simpl.
  destruct base64 as [|c t]; [done|]. simpl.
  destruct (context_created env); [|done].
  destruct Hbad as [|[->|(bytes & -> & Hlen)]]; [done..|].
  by rewrite pcmToAudioBuffer_Throw.
Qed.

Lemma unplayable_speech_is_logged_witness :
  playTTS {| speech_reply :=
               Fulfilled
                 {| text := None;
                    candidates :=
                      Some [ {| content :=
                                  Some {| parts :=
                                            Some [ {| inlineData :=
                                                        Some {| mimeType := None;
                                                                data := Some (js "AA==") |} |} ] |} |} ] |};
             context_created := true |}
  = finished [console_error_TTS].
Proof.
  eapply (unplayable_speech_is_logged _ _ (js "AA==")).
  - reflexivity.
  - reflexivity.
  - discriminate.
  - right. right. exists [Byte.x00]. split; [reflexivity | simpl; lia].
Defined.

Lemma Int16Array_app_byte bytes b :
  (List.length bytes mod 2 = 0)%nat -> Int16Array (bytes ++ [b]) = Int16Array bytes.
Proof.
  induction bytes as [|b0|lo hi rest IH] using byte_pairs_ind; [done..|].
  simpl List.length.
  replace (S (S (List.length rest))) with (List.length rest + 1 * 2)%nat by lia.
  rewrite Nat.Div0.mod_add. intros Heven. simpl. by rewrite IH.
Qed.

(** X22: half a sample is dropped: a byte that follows a whole number of
    16-bit samples changes nothing of what [pcmToAudioBuffer] returns or
    throws. *)
Theorem trailing_byte_is_ignored bytes b rate :
  (List.length bytes mod 2 = 0)%nat ->
  pcmToAudioBuffer (bytes ++ [b]) rate = pcmToAudioBuffer bytes rate.
Proof.
  intros Heven. unfold pcmToAudioBuffer. by rewrite Int16Array_app_byte.
Qed.

Lemma trailing_byte_is_ignored_witness :
  pcmToAudioBuffer ([Byte.x00; Byte.x80; Byte.xff; Byte.x7f] ++ [Byte.x01]) None
  = pcmToAudioBuffer [Byte.x00; Byte.x80; Byte.xff; Byte.x7f] None.
Proof.
  apply (trailing_byte_is_ignored [Byte.x00; Byte.x80; Byte.xff; Byte.x7f]).
  reflexivity.
Defined.

Lemma int16_inj lo hi lo' hi' :
  int16 lo hi = int16 lo' hi' -> lo = lo' /\ hi = hi'.
Proof.
  unfold int16. intros Heq.
  pose proof (Byte.to_N_bounded lo). pose proof (Byte.to_N_bounded hi).
  pose proof (Byte.to_N_bounded lo'). pose proof (Byte.to_N_bounded hi').
  assert (Byte.to_N lo = Byte.to_N lo' /\ Byte.to_N hi = Byte.to_N hi') as [Hlo Hhi].
  { destruct (Z.ltb_spec (Z.of_N (Byte.to_N lo) + 256 * Z.of_N (Byte.to_N hi)) 32768),
      (Z.ltb_spec (Z.of_N (Byte.to_N lo') + 256 * Z.of_N (Byte.to_N hi')) 32768); lia. }
  split; apply (inj Some); rewrite <- !Byte.of_to_N; congruence.
Qed.

Lemma Int16Array_inj bytes bytes' :
  (List.length bytes mod 2 = 0)%nat ->
  (List.length bytes' mod 2 = 0)%nat ->
  Int16Array bytes = Int16Array bytes' -> bytes = bytes'.
Proof.
  revert bytes'.
  induction bytes as [|b|lo hi rest IH] using byte_pairs_ind; intros bytes'.
  - destruct bytes' as [|b0 [|b1 rest']]; done.
  - done.
  - simpl List.length.
    replace (S (S (List.length rest))) with (List.length rest + 1 * 2)%nat by lia.
    rewrite Nat.Div0.mod_add. intros Heven.
    destruct bytes' as [|lo' [|hi' rest']]; [done..|].
    simpl List.length.
    replace (S (S (List.length rest'))) with (List.length rest' + 1 * 2)%nat by lia.
    rewrite Nat.Div0.mod_add. intros Heven'. simpl.
    intros [= [-> ->]%int16_inj Hrest]. f_equal. f_equal. by apply IH.
Qed.

(** The bytes of the whole samples of a stream: all of them, or all but
    the last. *)
Lemma Int16Array_whole (bytes : list Byte.byte) :
  Int16Array (take (2 * (List.length bytes / 2)) bytes) = Int16Array bytes.
Proof.
  induction bytes as [|b|lo hi rest IH] using byte_pairs_ind; [done..|].
  simpl List.length.
  replace (S (S (List.length rest))) with (List.length rest + 1 * 2)%nat by lia.
  rewrite Nat.div_add by done.
  replace (2 * (List.length rest / 2 + 1))%nat
    with (S (S (2 * (List.length rest / 2)))) by lia.
  cbn [firstn Int16Array]. by rewrite IH.
Qed.

Lemma whole_samples_even (bytes : list Byte.byte) :
  (List.length (take (2 * (List.length bytes / 2)) bytes) mod 2 = 0)%nat.
Proof.
  rewrite length_take.
  pose proof (Nat.Div0.mul_div_le (List.length bytes) 2).
  rewrite Nat.min_l by done.
  rewrite Nat.mul_comm. apply Nat.Div0.mod_mul.
Qed.

Lemma decoded_speech_inj bytes bytes' :
  (List.length bytes mod 2 = 0)%nat ->
  (List.length bytes' mod 2 = 0)%nat ->
  decoded_speech bytes = decoded_speech bytes' ->
  bytes = bytes'.
Proof.
  intros Heven Heven'. unfold decoded_speech.
  assert (forall l : list Byte.byte,
            (List.length l mod 2 = 0)%nat -> (List.length l < 2)%nat -> l = [])
    as Hsmall.
  { intros [|b0 [|b1 l]] Hl; simpl in *; try done. lia. }
  destruct (decide (2 <= List.length bytes)%nat) as [Hlen|Hlen];
    destruct (decide (2 <= List.length bytes')%nat) as [Hlen'|Hlen'].
  - rewrite !pcmToAudioBuffer_Return by done. intros [= _ Hsamples].
    apply Int16Array_inj; [done..|].
    revert Hsamples. generalize (Int16Array bytes), (Int16Array bytes').
    induction l as [|s l IH]; intros [|s' l']; try done.
    rewrite !fmap_cons. intros [= -> Hl]. f_equal. by apply IH.
  - rewrite pcmToAudioBuffer_Return, (pcmToAudioBuffer_Throw bytes') by (done || lia).
    done.
  - rewrite (pcmToAudioBuffer_Throw bytes), pcmToAudioBuffer_Return by (done || lia).
    done.
  - intros _. rewrite (Hsmall bytes), (Hsmall bytes'); (done || lia).
Qed.

(** X23: at the rate [playTTS] asks for, the decoding loses nothing but
    half a sample at the end: two streams are decoded alike (to the same
    buffer, or to the same refusal) exactly when the bytes of their whole
    16-bit samples are the same. *)
Theorem decoding_keeps_the_whole_samples bytes bytes' :
  decoded_speech bytes = decoded_speech bytes'
  <-> take (2 * (List.length bytes / 2)) bytes
      = take (2 * (List.length bytes' / 2)) bytes'.
Proof.
  assert (forall l, decoded_speech (take (2 * (List.length l / 2)) l) = decoded_speech l)
    as Hwhole.
  { intros l. unfold decoded_speech, pcmToAudioBuffer. by rewrite Int16Array_whole. }
  split.
  - rewrite <- (Hwhole bytes), <- (Hwhole bytes').
    apply decoded_speech_inj; apply whole_samples_even.
  - intros Heq. by rewrite <- (Hwhole bytes), <- (Hwhole bytes'), Heq.
Qed.

End Speech.

(** ** The chat of the result card *)

Section Chat.

Import ResultCard.

Implicit Types (st : state) (data : DictionaryEntry).
Implicit Types (history : list ChatMessage).
Implicit Types (turns : list (jsstring * settled geminiService.GenerateContentResponse)).

(** Induction over a list two elements at a time. *)
Lemma list_pairs_ind {A : Type} (P : list A -> Prop) :
  P [] ->
  (forall x, P [x]) ->
  (forall x y l, P l -> P (x :: y :: l)) ->
  forall l, P l.
Proof.
  intros Hnil Hone Hpair.
  assert (forall l, P l /\ forall x, P (x :: l)) as Hboth.
  { induction l as [|y l [IH1 IH2]]; split; auto. }
  intros l. apply Hboth.
Qed.

Lemma alternating_app history question answer :
  alternating history ->
  role question = user -> role answer = model ->
  alternating (history ++ [question; answer]).
Proof.
  intros Halt Hq Ha. revert Halt.
  induction history as [|q|q a rest IH] using list_pairs_ind; simpl; [done..|].
  intros (? & ? & ?). auto.
Qed.

Lemma alternating_length history : alternating history -> Nat.Even (length history).
Proof.
  induction history as [|q|q a rest IH] using list_pairs_ind; simpl; [by exists 0%nat|done|].
  intros (_ & _ & [k Hk]%IH). exists (S k). lia.
Qed.


(** The handler run to its end is its two halves, one after the other. *)
Lemma handleSendChat_halves data reply st :
  handleSendChat data reply st
  = if truthy_string (trim (chatInput st))
    then ((answer reply (ask data st).1).1,
          (ask data st).2 ++ (answer reply (ask data st).1).2)
    else (st, []).
Proof.
  unfold handleSendChat, ask, answer.
  destruct (truthy_string (trim (chatInput st))); simpl; [|done].
  by destruct (sendChatMessage reply).
Qed.

(** [converse] is the chat in which each request settles before the next
    event. *)
Lemma converse_in_sequence data turns st :
  isChatLoading st = false ->
  chat data (in_sequence turns) {| shown := st; pending := 0 |}
  = ({| shown := (converse data turns st).1; pending := 0 |},
     (converse data turns st).2).
Proof.
  revert st. induction turns as [|[message reply] turns IH]; intros st Hidle; [done|].
  unfold in_sequence in *. rewrite bind_cons. cbn [app chat converse fst snd].
  rewrite handleSendChat_halves.
  cbn [react shown pending]. unfold send. cbn [shown pending].
  replace (isChatLoading (setChatInput message st)) with false by done.
  unfold ask. cbn [chatInput setChatInput].
  destruct (truthy_string (trim message)) eqn:Hmessage; cbn [negb fst snd].
  - cbn [react pending shown List.length Nat.add].
    replace (0 + 1)%nat with 1%nat by done.
    destruct (answer reply _) as [st1 logged] eqn:Hanswer. cbn [fst snd].
    assert (isChatLoading st1 = false) as Hidle1.
    { unfold answer in Hanswer. destruct (sendChatMessage reply); by injection Hanswer as <- _. }
    rewrite (IH st1 Hidle1).
    destruct (converse data turns st1) as [st2 trace2]. by rewrite <- app_assoc.
  - cbn [react pending shown List.length Nat.add].
    rewrite (IH (setChatInput message st)) by done.
    by destruct (converse data turns (setChatInput message st)).
Qed.

Lemma react_in_turn data ev c :
  ev ≠ PressEnter -> ev ≠ RequestSettles Rejected ->
  in_turn c ->
  in_turn (react data ev c).1
  /\ forall history message contextTerm,
      sendChatMessage_called history message contextTerm ∈ (react data ev c).2 ->
      alternating history /\ contextTerm = term data
      /\ truthy_string (trim message) = true.
Proof.
  intros Henter Hanswered. unfold in_turn.
  destruct c as [st [|[|n]]]; cbn [pending shown]; [| |done].
  - intros [Hidle Halt].
    assert (in_turn (send data {| shown := st; pending := 0 |}).1
            /\ forall history message contextTerm,
                sendChatMessage_called history message contextTerm
                  ∈ (send data {| shown := st; pending := 0 |}).2 ->
                alternating history /\ contextTerm = term data
                /\ truthy_string (trim message) = true) as Hsend.
    { unfold send, ask, in_turn. cbn [shown pending].
      destruct (truthy_string (trim (chatInput st))) eqn:Hinput; simpl.
      - split; [by eauto 10|].
        by intros history m t [= -> -> ->]%list_elem_of_singleton.
      - split; [done|]. by intros ? ? ? ?%elem_of_nil. }
    destruct ev as [s| | |reply]; [|done|..].
    + simpl. split; [done|]. by intros ? ? ? ?%elem_of_nil.
    + cbn [react shown]. by rewrite Hidle.
    + simpl. split; [done|]. by intros ? ? ? ?%elem_of_nil.
  - intros [Hbusy (history & question & Hhistory & Halt & Hrole)].
    destruct ev as [s| | |[result|]]; [|done| | |done].
    + simpl. split; [by eauto 10|]. by intros ? ? ? ?%elem_of_nil.
    + cbn [react shown]. rewrite Hbusy. simpl.
      split; [by eauto 10|]. by intros ? ? ? ?%elem_of_nil.
    + simpl. split; [|by intros ? ? ? ?%elem_of_nil].
      split; [done|]. rewrite Hhistory, <- app_assoc. by apply alternating_app.
Qed.

Lemma chat_in_turn data events c :
  Forall (fun ev => ev ≠ PressEnter /\ ev ≠ RequestSettles Rejected) events ->
  in_turn c ->
  in_turn (chat data events c).1
  /\ forall history message contextTerm,
      sendChatMessage_called history message contextTerm ∈ (chat data events c).2 ->
      alternating history /\ contextTerm = term data
      /\ truthy_string (trim message) = true.
Proof.
  intros Hevents. revert c.
  induction Hevents as [|ev events [Henter Hanswered] _ IH]; intros c Hc; simpl.
  - split; [done|]. by intros ? ? ? ?%elem_of_nil.
  - destruct (react_in_turn data ev c Henter Hanswered Hc) as [Hc1 Hcalls1].
    destruct (react data ev c) as [c1 trace1]. simpl in *.
    destruct (IH c1 Hc1) as [Hc2 Hcalls2].
    destruct (chat data events c1) as [c2 trace2]. simpl in *.
    split; [done|].
    intros history m t [Hin|Hin]%elem_of_app; [by apply Hcalls1 | by apply Hcalls2].
Qed.

(** X24: while the messages are sent with the Send button, which is
    disabled as long as the spinner is on, and every request is answered,
    the questions and the answers take turns: at most one request is
    pending at any time, the transcript alternates between the user and
    the model, with at most the question of the pending request at its
    end, and every request carries an alternating transcript, the term of
    the card and a message that is not blank. *)
Theorem chat_takes_turns data events :
  Forall (fun ev => ev ≠ PressEnter /\ ev ≠ RequestSettles Rejected) events ->
  in_turn (chat data events opened).1
  /\ (pending (chat data events opened).1 <= 1)%nat
  /\ forall history message contextTerm,
      sendChatMessage_called history message contextTerm ∈ (chat data events opened).2 ->
      alternating history /\ contextTerm = term data
      /\ truthy_string (trim message) = true.
Proof.
  intros Hevents.
  destruct (chat_in_turn data events opened Hevents) as [Hturn Hcalls]; [done|].
  split; [done|]. split; [|done].
  unfold in_turn in Hturn.
  destruct (pending (chat data events opened).1) as [|[|n]]; [lia..|done].
Qed.

Lemma chat_takes_turns_witness :
  in_turn
    (chat samples.toque
       [TypeMessage (js "Is this formal?"); ClickSend;
        TypeMessage (js "Plural?"); ClickSend;
        RequestSettles (Fulfilled (samples.text_response (js "No.")));
        ClickSend] opened).1
  /\ (pending
        (chat samples.toque
           [TypeMessage (js "Is this formal?"); ClickSend;
            TypeMessage (js "Plural?"); ClickSend;
            RequestSettles (Fulfilled (samples.text_response (js "No.")));
            ClickSend] opened).1 <= 1)%nat
  /\ forall history message contextTerm,
      sendChatMessage_called history message contextTerm
        ∈ (chat samples.toque
             [TypeMessage (js "Is this formal?"); ClickSend;
              TypeMessage (js "Plural?"); ClickSend;
              RequestSettles (Fulfilled (samples.text_response (js "No.")));
              ClickSend] opened).2 ->
      alternating history /\ contextTerm = term samples.toque
      /\ truthy_string (trim message) = true.
Proof.
  apply (chat_takes_turns samples.toque
           [TypeMessage (js "Is this formal?"); ClickSend;
            TypeMessage (js "Plural?"); ClickSend;
            RequestSettles (Fulfilled (samples.text_response (js "No.")));
            ClickSend]).
  repeat constructor; discriminate.
Defined.

(** X25: a question whose request fails stays in the transcript without
    an answer: one line goes to the console, the input box is cleared,
    the spinner is off, and the transcript, alternating until then, no
    longer is; the next message then goes out with a history that ends on
    that unanswered question. *)
Theorem unanswered_question_stays data st :
  truthy_string (trim (chatInput st)) = true ->
  alternating (chatHistory st) ->
  exists st1,
    handleSendChat data Rejected st
    = (st1, [sendChatMessage_called (chatHistory st) (chatInput st) (term data);
             chat_console_error])
    /\ chatHistory st1 = chatHistory st ++ [ {| role := user; text := chatInput st |} ]
    /\ chatInput st1 = []
    /\ isChatLoading st1 = false
    /\ ~ alternating (chatHistory st1)
    /\ forall message reply,
        truthy_string (trim message) = true ->
        head (handleSendChat data reply (setChatInput message st1)).2
        = Some (sendChatMessage_called
                  (chatHistory st ++ [ {| role := user; text := chatInput st |} ])
                  message (term data)).
Proof.
  intros Hinput Halt. unfold handleSendChat. rewrite Hinput. simpl.
  eexists. split; [reflexivity|]. simpl. repeat split.
  - intros Hbad%alternating_length. apply alternating_length in Halt.
    rewrite length_app in Hbad. simpl in Hbad.
    destruct Halt as [k Hk], Hbad as [k' Hk']. lia.
  - intros message reply Hmessage. rewrite Hmessage. simpl.
    by destruct (sendChatMessage reply).
Qed.

Lemma unanswered_question_stays_witness :
  exists st1,
    handleSendChat samples.toque Rejected (setChatInput (js "Plural?") initial)
    = (st1, [sendChatMessage_called (chatHistory (setChatInput (js "Plural?") initial))
               (chatInput (setChatInput (js "Plural?") initial)) (term samples.toque);
             chat_console_error])
    /\ chatHistory st1
       = chatHistory (setChatInput (js "Plural?") initial)
         ++ [ {| role := user; text := chatInput (setChatInput (js "Plural?") initial) |} ]
    /\ chatInput st1 = []
    /\ isChatLoading st1 = false
    /\ ~ alternating (chatHistory st1)
    /\ forall message reply,
        truthy_string (trim message) = true ->
        head (handleSendChat samples.toque reply (setChatInput message st1)).2
        = Some (sendChatMessage_called
                  (chatHistory (setChatInput (js "Plural?") initial)
                   ++ [ {| role := user;
                           text := chatInput (setChatInput (js "Plural?") initial) |} ])
                  message (term samples.toque)).
Proof.
  apply (unanswered_question_stays samples.toque (setChatInput (js "Plural?") initial)).
  - reflexivity.
  - exact I.
Defined.




(** X29: the Enter key sends while a request is pending, which the Send
    button does not: two messages that are not blank, each sent with
    Enter before any request has settled, both go out, the second with a
    history that ends on the first question, still without its answer;
    once both requests are answered the transcript holds the two
    questions and then the two answers.  With the button the second
    message is not sent while the spinner is on. *)
Theorem enter_sends_while_pending data a b r1 r2 :
  truthy_string (trim a) = true ->
  truthy_string (trim b) = true ->
  exists t1 t2,
    sendChatMessage (Fulfilled r1) = Return t1
    /\ sendChatMessage (Fulfilled r2) = Return t2
    /\ chat data
         [TypeMessage a; PressEnter; TypeMessage b; PressEnter;
          RequestSettles (Fulfilled r1); RequestSettles (Fulfilled r2)] opened
       = ({| shown :=
               {| chatInput := [];
                  chatHistory :=
                    [ {| role := user; text := a |}; {| role := user; text := b |};
                      {| role := model; text := t1 |}; {| role := model; text := t2 |} ];
                  isChatLoading := false |};
             pending := 0 |},
          [sendChatMessage_called [] a (term data);
           sendChatMessage_called [ {| role := user; text := a |} ] b (term data)])
    /\ ~ alternating
           [ {| role := user; text := a |}; {| role := user; text := b |};
             {| role := model; text := t1 |}; {| role := model; text := t2 |} ]
    /\ chat data
         [TypeMessage a; PressEnter; TypeMessage b; ClickSend;
          RequestSettles (Fulfilled r1)] opened
       = ({| shown :=
               {| chatInput := b;
                  chatHistory :=
                    [ {| role := user; text := a |}; {| role := model; text := t1 |} ];
                  isChatLoading := false |};
             pending := 0 |},
          [sendChatMessage_called [] a (term data)]).
Proof.
  intros Ha Hb. eexists _, _.
  split; [reflexivity|]. split; [reflexivity|].
  split; [|split].
  - cbn -[trim truthy_string sendChatMessage]. unfold send, ask.
    cbn -[trim truthy_string sendChatMessage]. rewrite Ha.
    cbn -[trim truthy_string sendChatMessage]. unfold send, ask.
    cbn -[trim truthy_string sendChatMessage]. rewrite Hb.
    reflexivity.
  - simpl. by intros (_ & [=] & _).
  - cbn -[trim truthy_string sendChatMessage]. unfold send, ask.
    cbn -[trim truthy_string sendChatMessage]. rewrite Ha.
    reflexivity.
Qed.

Lemma enter_sends_while_pending_witness :
  exists t1 t2,
    sendChatMessage (Fulfilled (samples.text_response (js "No."))) = Return t1
    /\ sendChatMessage (Fulfilled (samples.text_response (js "Toques."))) = Return t2
    /\ chat samples.toque
         [TypeMessage (js "Is this formal?"); PressEnter;
          TypeMessage (js "Plural?"); PressEnter;
          RequestSettles (Fulfilled (samples.text_response (js "No.")));
          RequestSettles (Fulfilled (samples.text_response (js "Toques.")))] opened
       = ({| shown :=
               {| chatInput := [];
                  chatHistory :=
                    [ {| role := user; text := js "Is this formal?" |};
                      {| role := user; text := js "Plural?" |};
                      {| role := model; text := t1 |}; {| role := model; text := t2 |} ];
                  isChatLoading := false |};
             pending := 0 |},
          [sendChatMessage_called [] (js "Is this formal?") (term samples.toque);
           sendChatMessage_called [ {| role := user; text := js "Is this formal?" |} ]
             (js "Plural?") (term samples.toque)])
    /\ ~ alternating
           [ {| role := user; text := js "Is this formal?" |};
             {| role := user; text := js "Plural?" |};
             {| role := model; text := t1 |}; {| role := model; text := t2 |} ]
    /\ chat samples.toque
         [TypeMessage (js "Is this formal?"); PressEnter;
          TypeMessage (js "Plural?"); ClickSend;
          RequestSettles (Fulfilled (samples.text_response (js "No.")))] opened
       = ({| shown :=
               {| chatInput := js "Plural?";
                  chatHistory :=
                    [ {| role := user; text := js "Is this formal?" |};
                      {| role := model; text := t1 |} ];
                  isChatLoading := false |};
             pending := 0 |},
          [sendChatMessage_called [] (js "Is this formal?") (term samples.toque)]).
Proof.
  apply (enter_sends_while_pending samples.toque (js "Is this formal?") (js "Plural?")
           (samples.text_response (js "No.")) (samples.text_response (js "Toques.")));
    reflexivity.
Defined.

End Chat.

(** ** Round trips through the screens *)

Section RoundTrips.

Implicit Types (st : App.state) (v : ViewState).

Lemma setView_view st : App.setView (App.view st) st = st.
Proof. by destruct st. Qed.

(** X27: the state of a session survives navigation: going to another
    view of the navigation bar and back leaves the result of the last
    search, the typed term and context, the notebook, the cursor and the
    story exactly as they were, provided that the view visited does not
    crash. *)
Theorem navigation_keeps_the_session st v :
  App.crashed st = false ->
  App.view st ≠ STORY ->
  v ≠ STORY ->
  App.crashed (App.setView v st) = false ->
  App.run [App.Navigate v; App.Navigate (App.view st)] st = App.Finished st [].
Proof.
  intros Hok Hview Hv Hvisited.
  assert (App.step (App.Navigate v) st = App.Finished (App.setView v st) []) as Hgo.
  { unfold App.step. rewrite Hok. by destruct v, (App.view st). }
  assert (App.step (App.Navigate (App.view st)) (App.setView v st)
          = App.Finished st []) as Hback.
  { unfold App.step. rewrite Hvisited. clear Hok Hvisited.
    destruct st as [view0 ? ? ? ? ? ? ? ?]; simpl in *.
    by destruct view0, v. }
  simpl. by rewrite Hgo, Hback.
Qed.

Lemma navigation_keeps_the_session_witness :
  App.run [App.Navigate FLASHCARDS; App.Navigate (App.view scenarios.browsing)]
    scenarios.browsing
  = App.Finished scenarios.browsing [].
Proof.
  apply (navigation_keeps_the_session scenarios.browsing FLASHCARDS);
    (reflexivity || discriminate).
Defined.

Lemma setNotebook_same st (update : list DictionaryEntry -> list DictionaryEntry) :
  update (App.notebook st) = App.notebook st -> App.setNotebook update st = st.
Proof. destruct st. unfold App.setNotebook. simpl. by intros ->. Qed.

(** X28: the bookmark of the result card, clicked twice on a result whose
    term the notebook did not hold, saves the result at the end of the
    notebook and takes it out again: the whole state is back where it
    was. *)
Theorem bookmark_twice_restores_the_state st result :
  App.view st = SEARCH ->
  App.currentResult st = Some result ->
  term result ∉ term <$> App.notebook st ->
  (exists st1,
      App.step App.ClickSave st = App.Finished st1 []
      /\ App.notebook st1 = App.notebook st ++ [result])
  /\ App.run [App.ClickSave; App.ClickSave] st = App.Finished st [].
Proof.
  intros Hview Hresult Hnew.
  assert (App.step App.ClickSave st
          = App.Finished (App.setNotebook (fun prev => prev ++ [result]) st) [])
    as Hsave.
  { unfold App.step, App.crashed. rewrite Hview, Hresult.
    unfold App.toggleSave. apply find_term_None in Hnew. by rewrite Hnew. }
  split; [by eexists|].
  simpl. rewrite Hsave.
  unfold App.step, App.crashed. simpl. rewrite Hview, Hresult.
  unfold App.toggleSave.
  destruct (find_term_Some (App.notebook st ++ [result]) (term result)) as [n ->].
  { rewrite fmap_app. apply elem_of_app. right. apply list_elem_of_here. }
  simpl. f_equal.
  rewrite <- (setNotebook_same st (fun prev => prev)) at 2 by done.
  unfold App.setNotebook. simpl. f_equal.
  rewrite filter_app, filter_term_absent by done.
  rewrite filter_cons_False by (intros Hne; by apply Hne).
  by rewrite filter_nil, app_nil_r.
Qed.

Lemma bookmark_twice_restores_the_state_witness :
  (exists st1,
      App.step App.ClickSave
        (App.setCurrentResult (Some samples.toque) (App.init [samples.double_double]))
      = App.Finished st1 []
      /\ App.notebook st1
         = App.notebook
             (App.setCurrentResult (Some samples.toque) (App.init [samples.double_double]))
           ++ [samples.toque])
  /\ App.run [App.ClickSave; App.ClickSave]
       (App.setCurrentResult (Some samples.toque) (App.init [samples.double_double]))
     = App.Finished
         (App.setCurrentResult (Some samples.toque) (App.init [samples.double_double])) [].
Proof.
  apply (bookmark_twice_restores_the_state
           (App.setCurrentResult (Some samples.toque) (App.init [samples.double_double]))
           samples.toque).
  - reflexivity.
  - reflexivity.
  - apply (bool_decide_unpack _). vm_compute. exact I.
Defined.

End RoundTrips.
